(** * Route search over an adjacency-list graph

    A shallow embedding of [PythonApplication1.py]: the loader of the
    adjacency list, the timing wrapper and the five search functions
    ([bfs], [dfs], [iddfs], [best_first_search], [a_star]), followed by
    the properties established about them.

    Conventions of the embedding.
    - A city name is a [string]; a path is a [list string].
    - The graph is the Python dict [graph : dict[str, list[str]]], here a
      [gmap string (list string)]; [graph.get(c, [])] is [neighbors].
    - A [set()] of city names is a [gset string].
    - A [while] loop is a body function iterated by [while]; the number of
      iterations allowed is an explicit argument and the loop answers
      [None] when that allowance is used up before the loop exits.  Every
      search loop is shown to exit within a bound computed from the graph.
    - An uncaught Python exception is a value of [exn], carried by [Err].
    - The interpreter's own limits (recursion depth, memory) are not part
      of the model. *)

From stdpp Require Import gmap strings list fin_maps pretty.
From Stdlib Require Import ZArith Lia.

Open Scope string_scope.
Open Scope nat_scope.
Open Scope list_scope.

(** ** Values shared by all functions *)

(** A path is the Python list of city names built by [path + [neighbor]]. *)
Abbreviation Path := (list string) (only parsing).
Abbreviation Graph := (gmap string (list string)) (only parsing).

(** [graph.get(current, [])] *)
Definition neighbors (graph : Graph) (current : string) : list string :=
  default [] (graph !! current).

(** Uncaught exceptions.  [KeyError] is what [cities[city]] raises for a
    missing key, [OverflowError] what float [**] raises out of range and
    [IndexError] what [heappop] raises on an empty list. *)
Inductive exn : Type :=
  | KeyError (key : string)
  | OverflowError
  | IndexError.

Inductive Err (A : Type) : Type :=
  | Ok (a : A)
  | Raise (e : exn).
Arguments Ok {A} a.
Arguments Raise {A} e.

#[global] Instance Err_ret : MRet Err := λ A a, Ok a.
#[global] Instance Err_bind : MBind Err := λ A B f m,
  match m with
  | Ok a => f a
  | Raise e => Raise e
  end.

(** ** Loops *)

(** [while body fuel s] runs the loop body from state [s]; the body either
    hands back the next state ([inl]) or leaves the loop with the
    function's result ([inr]).  At most [fuel] bodies are run. *)
Fixpoint while {State R : Type} (body : State → State + R) (fuel : nat) (s : State) : option R :=
  match fuel with
  | O => None
  | S fuel' =>
      match body s with
      | inl s' => while body fuel' s'
      | inr r => Some r
      end
  end.

(** The state after [k] turns of the loop, if it is still running then. *)
Fixpoint turns {State R : Type} (body : State → State + R) (k : nat) (s : State) : option State :=
  match k with
  | O => Some s
  | S k' =>
      match body s with
      | inl s' => turns body k' s'
      | inr _ => None
      end
  end.

(** [for x in l: s = f(s, x)], where [f] may raise. *)
Fixpoint for_each {State A : Type} (f : State → A → Err State) (s : State) (l : list A) : Err State :=
  match l with
  | [] => Ok s
  | x :: l' =>
      match f s x with
      | Ok s' => for_each f s' l'
      | Raise e => Raise e
      end
  end.

(** Truth value of a search result in [if result:]: [None] and the empty
    list are false. *)
Definition truthy (r : option Path) : bool :=
  match r with
  | Some (_ :: _) => true
  | _ => false
  end.

(** [for x in l: r = f(x); if r: return r] followed by [return None]. *)
Fixpoint first_truthy {A : Type} (f : A → option Path) (l : list A) : option Path :=
  match l with
  | [] => None
  | x :: l' => let r := f x in if truthy r then r else first_truthy f l'
  end.

(** [l.pop()]: the last element and the list without it. *)
Fixpoint pop {A : Type} (l : list A) : option (list A * A) :=
  match l with
  | [] => None
  | x :: l' =>
      match pop l' with
      | None => Some ([], x)
      | Some (l'', y) => Some (x :: l'', y)
      end
  end.

(** [range(n)] for a Python int [n]: empty when [n <= 0]. *)
Definition range (n : Z) : list nat := seq 0 (Z.to_nat n).

(** ** Loading the adjacency list *)

(** [graph.setdefault(a, []).append(b)] *)
Definition setdefault_append (graph : Graph) (a b : string) : Graph :=
  <[a := default [] (graph !! a) ++ [b]]> graph.

(** The body of [for line in file] in [load_adjacencies]; [row] is
    [line.strip().split()].  A row that does not have two fields is
    skipped. *)
Definition load_row (graph : Graph) (row : list string) : Graph :=
  match row with
  | [city1; city2] =>
      setdefault_append (setdefault_append graph city1 city2) city2 city1
  | _ => graph
  end.

Definition load_adjacencies (rows : list (list string)) : Graph :=
  foldl load_row ∅ rows.

(** ** Breadth-first search *)

(** One turn of [while queue: ...] in [bfs].  The state is the deque of
    [(current, path)] pairs, front first, and the visited set. *)
Definition bfs_body (graph : Graph) (goal : string)
    (st : list (string * Path) * gset string)
    : list (string * Path) * gset string + option Path :=
  let '(queue, visited) := st in
  match queue with
  | [] => inr None
  | (current, path) :: queue =>
      if decide (current = goal) then inr (Some path)
      else if decide (current ∈ visited) then inl (queue, visited)
      else
        inl (queue ++ ((λ neighbor, (neighbor, path ++ [neighbor])) <$> neighbors graph current),
             {[current]} ∪ visited)
  end.

Definition bfs (fuel : nat) (graph : Graph) (start goal : string) : option (option Path) :=
  while (bfs_body graph goal) fuel ([(start, [start])], ∅).

(** ** Depth-first search *)

(** One turn of [while stack: ...] in [dfs]; the top of the stack is the
    end of the list. *)
Definition dfs_body (graph : Graph) (goal : string)
    (st : list (string * Path) * gset string)
    : list (string * Path) * gset string + option Path :=
  let '(stack, visited) := st in
  match pop stack with
  | None => inr None
  | Some (stack, (current, path)) =>
      if decide (current = goal) then inr (Some path)
      else if decide (current ∈ visited) then inl (stack, visited)
      else
        inl (stack ++ ((λ neighbor, (neighbor, path ++ [neighbor])) <$> neighbors graph current),
             {[current]} ∪ visited)
  end.

Definition dfs (fuel : nat) (graph : Graph) (start goal : string) : option (option Path) :=
  while (dfs_body graph goal) fuel ([(start, [start])], ∅).

(** ** Iterative deepening *)

(** The nested function [dls] of [iddfs]. *)
Fixpoint dls (graph : Graph) (goal : string) (depth : nat) (node : string) (path : Path)
    : option Path :=
  match depth with
  | O => None
  | S depth' =>
      if decide (node = goal) then Some path
      else
        first_truthy
          (λ neighbor,
             if decide (neighbor ∈ path) then None
             else dls graph goal depth' neighbor (path ++ [neighbor]))
          (neighbors graph node)
  end.

Definition iddfs (graph : Graph) (start goal : string) (max_depth : Z) : option Path :=
  first_truthy (λ depth, dls graph goal depth start [start]) (range max_depth).

(** The default of the keyword argument [max_depth]. *)
Definition default_max_depth : Z := 20.

(** ** Floats and the heap queue *)

(** Python's [float], kept abstract: the type, the arithmetic the program
    applies to it and its printing are parameters.  [fzero] is the [0]
    that seeds the costs of [a_star]; [fpow2 x] is [x ** 2] and
    [fpow_half x] is [x ** 0.5], both of which may raise; [format_6f x]
    is [f"{x:.6f}"]. *)
Class Float : Type := {
  F : Type;
  fzero : F;
  fadd : F → F → F;
  fsub : F → F → F;
  fpow2 : F → Err F;
  fpow_half : F → Err F;
  flt : F → F → bool;
  format_6f : F → string;
}.

(** The functions [heappush] and [heappop] of the standard module
    [heapq], over a list of entries of type [E].  Their code is not part
    of the program; what is taken from their contract is that a push adds
    its entry, that a pop of a non-empty heap removes one entry and hands
    it back, and that nothing else enters or leaves the heap.  Which
    entry a pop picks (a least one under the tuple order) is left open:
    the results below hold for every choice. *)
Class Heapq (E : Type) : Type := {
  heappush : list E → E → list E;
  heappop : list E → option (E * list E);
  heappush_perm : ∀ (h : list E) (x : E), heappush h x ≡ₚ x :: h;
  heappop_perm : ∀ (h h' : list E) (x : E), heappop h = Some (x, h') → h ≡ₚ x :: h';
  heappop_nonempty : ∀ h : list E, h ≠ [] → is_Some (heappop h);
}.

Section Heuristic.
Context `{Float}.

(** [cities[city]] *)
Definition coordinates (cities : gmap string (F * F)) (city : string) : Err (F * F) :=
  match cities !! city with
  | Some c => Ok c
  | None => Raise (KeyError city)
  end.

(** The nested function [heuristic] of [best_first_search] and of
    [a_star] (the same text in both). *)
Definition heuristic (cities : gmap string (F * F)) (goal : string) (city : string) : Err F :=
  '(lat1, lon1) ← coordinates cities city;
  '(lat2, lon2) ← coordinates cities goal;
  dlat ← fpow2 (fsub lat1 lat2);
  dlon ← fpow2 (fsub lon1 lon2);
  fpow_half (fadd dlat dlon).

(** *** Greedy best-first search *)

Abbreviation bf_entry := (F * string * list string)%type (only parsing).

Context `{Heapq (F * string * list string)}.

(** [heapq.heappush(pq, (heuristic(neighbor), neighbor, path + [neighbor]))] *)
Definition bf_push (cities : gmap string (F * F)) (goal : string) (path : Path)
    (pq : list bf_entry) (neighbor : string) : Err (list bf_entry) :=
  h ← heuristic cities goal neighbor;
  mret (heappush pq (h, neighbor, path ++ [neighbor])).

(** One turn of [while pq: ...]. *)
Definition bf_body (graph : Graph) (cities : gmap string (F * F)) (goal : string)
    (st : list bf_entry * gset string)
    : list bf_entry * gset string + Err (option Path) :=
  let '(pq, visited) := st in
  match pq with
  | [] => inr (Ok None)
  | _ :: _ =>
      match heappop pq with
      | None => inr (Raise IndexError)
      | Some ((_, current, path), pq) =>
          if decide (current = goal) then inr (Ok (Some path))
          else if decide (current ∈ visited) then inl (pq, visited)
          else
            match for_each (bf_push cities goal path) pq (neighbors graph current) with
            | Ok pq => inl (pq, {[current]} ∪ visited)
            | Raise e => inr (Raise e)
            end
      end
  end.

Definition best_first_search (fuel : nat) (graph : Graph) (cities : gmap string (F * F))
    (start goal : string) : option (Err (option Path)) :=
  match heuristic cities goal start with
  | Raise e => Some (Raise e)
  | Ok h => while (bf_body graph cities goal) fuel ([(h, start, [start])], ∅)
  end.

(** *** A* search *)

Abbreviation as_entry := (F * string * list string * F)%type (only parsing).

Context `{Heapq (F * string * list string * F)}.

(** The body of [for neighbor in graph.get(current, [])] in [a_star];
    the loop works on [open_set] and [g_score]. *)
Definition as_relax (cities : gmap string (F * F)) (goal : string) (path : Path) (cost : F)
    (st : list as_entry * gmap string F) (neighbor : string)
    : Err (list as_entry * gmap string F) :=
  let '(open_set, g_score) := st in
  h ← heuristic cities goal neighbor;
  let new_cost := fadd cost h in
  if match g_score !! neighbor with
     | None => true
     | Some g => flt new_cost g
     end
  then
    h' ← heuristic cities goal neighbor;
    mret (heappush open_set (fadd new_cost h', neighbor, path ++ [neighbor], new_cost),
          <[neighbor := new_cost]> g_score)
  else mret (open_set, g_score).

(** One turn of [while open_set: ...]. *)
Definition as_body (graph : Graph) (cities : gmap string (F * F)) (goal : string)
    (st : list as_entry * gmap string F * gset string)
    : list as_entry * gmap string F * gset string + Err (option Path) :=
  let '(open_set, g_score, visited) := st in
  match open_set with
  | [] => inr (Ok None)
  | _ :: _ =>
      match heappop open_set with
      | None => inr (Raise IndexError)
      | Some ((_, current, path, cost), open_set) =>
          if decide (current = goal) then inr (Ok (Some path))
          else if decide (current ∈ visited) then inl (open_set, g_score, visited)
          else
            match for_each (as_relax cities goal path cost) (open_set, g_score)
                    (neighbors graph current) with
            | Ok (open_set, g_score) => inl (open_set, g_score, {[current]} ∪ visited)
            | Raise e => inr (Raise e)
            end
      end
  end.

Definition a_star (fuel : nat) (graph : Graph) (cities : gmap string (F * F))
    (start goal : string) : option (Err (option Path)) :=
  while (as_body graph cities goal) fuel
    ([(fzero, start, [start], fzero)], {[start := fzero]}, ∅).
End Heuristic.

(** ** The timing wrapper *)

Section Timing.
Context `{Float}.

(** What a call can hand back to [measure_time]'s caller: [None], a
    list of names, a float, or a tuple. *)
Inductive value : Type :=
  | VNone
  | VList (l : list string)
  | VFloat (x : F)
  | VTuple (a b : value).

(** A search result as a Python value. *)
Definition value_of_result (r : option Path) : value :=
  match r with
  | None => VNone
  | Some p => VList p
  end.

(** What [measure_time] does to the outside world, in the order it does
    it: a reading of [time.perf_counter], the call of the measured
    function with what the call ended in, a line printed. *)
Inductive event : Type :=
  | EvPerfCounter (reading : F)
  | EvCall (outcome : Err value)
  | EvPrint (line : string).

(** The outside world: the events so far, oldest first, and the clock
    behind [time.perf_counter]; [clock w h] is the reading a call gets
    once the events [h] have happened, so that the time a call of the
    measured function takes shows in the readings after it. *)
Record World : Type := mkWorld {
  clock : list event → F;
  trace : list event;
}.

Definition perf_counter (w : World) : F * World :=
  let reading := clock w (trace w) in
  (reading, mkWorld (clock w) (trace w ++ [EvPerfCounter reading])).

Definition print (line : string) (w : World) : World :=
  mkWorld (clock w) (trace w ++ [EvPrint line]).

(** The call of [search_function] on the arguments [args]. *)
Definition call {A : Type} (search_function : A → Err value) (args : A) (w : World)
    : Err value * World :=
  let outcome := search_function args in
  (outcome, mkWorld (clock w) (trace w ++ [EvCall outcome])).

(** The calls of the measured function among the events, with what each
    ended in. *)
Definition invocations (h : list event) : list (Err value) :=
  omap (λ e, match e with EvCall outcome => Some outcome | _ => None end) h.

Definition time_taken (elapsed_time : F) : string :=
  "Time taken: " +:+ format_6f elapsed_time +:+ " seconds".

Definition measure_time {A : Type} (search_function : A → Err value) (args : A) (w : World)
    : Err value * World :=
  let '(start, w) := perf_counter w in
  match call search_function args w with
  | (Raise e, w) => (Raise e, w)
  | (Ok result, w) =>
      let '(end_, w) := perf_counter w in
      let elapsed_time := fsub end_ start in
      let w := print (time_taken elapsed_time) w in
      (Ok result, w)
  end.

(** The timing harness as the specification words it:
    [run(algorithm, ...args) -> (result, elapsedDuration)], nothing
    printed. *)
Definition run {A : Type} (algorithm : A → Err value) (args : A) (w : World)
    : Err value * World :=
  let '(start, w) := perf_counter w in
  match call algorithm args w with
  | (Raise e, w) => (Raise e, w)
  | (Ok result, w) =>
      let '(end_, w) := perf_counter w in
      (Ok (VTuple result (VFloat (fsub end_ start))), w)
  end.
End Timing.

(** ** Instances to run the functions on

    Integer coordinates with exact arithmetic (the root is the integer
    square root), and a heap kept as a list sorted by a key. *)

Definition Z_format_6f (x : Z) : string :=
  (if (x <? 0)%Z then "-" else "") +:+ pretty (Z.abs_N x) +:+ ".000000".

#[local] Instance Z_Float : Float := {|
  F := Z;
  fzero := 0%Z;
  fadd := Z.add;
  fsub := Z.sub;
  fpow2 := λ x, Ok (x * x)%Z;
  fpow_half := λ x, Ok (Z.sqrt x);
  flt := Z.ltb;
  format_6f := Z_format_6f;
|}.

Section SortedHeap.
Context {E : Type} (key : E → Z).

(** Insertion after the entries whose key is not larger. *)
Fixpoint sorted_push (h : list E) (x : E) : list E :=
  match h with
  | [] => [x]
  | y :: h' => if (key x <? key y)%Z then x :: y :: h' else y :: sorted_push h' x
  end.

Definition sorted_pop (h : list E) : option (E * list E) :=
  match h with
  | [] => None
  | x :: h' => Some (x, h')
  end.

Definition sorted_heap : Heapq E.
Proof.
  refine {| heappush := sorted_push; heappop := sorted_pop |}.
  - intros h x. induction h as [|y h IH]; simpl; [done|].
    case_match; [done|]. rewrite IH. apply Permutation_swap.
  - intros h h' x. destruct h; simpl; intros [= -> ->]; done.
  - intros h Hh. destruct h; [done|]. eauto.
Defined.
End SortedHeap.

#[local] Instance bf_heap : Heapq (Z * string * list string) :=
  sorted_heap (λ e, e.1.1).
#[local] Instance as_heap : Heapq (Z * string * list string * Z) :=
  sorted_heap (λ e, e.1.1.1).

(** The fixture of the specification: edges A-B, B-C, A-D, D-C, as
    [load_adjacencies] builds it, with the four cities on a line. *)
Definition square_rows : list (list string) :=
  [["A"; "B"]; ["B"; "C"]; ["A"; "D"]; ["D"; "C"]].
Definition square : Graph := Eval vm_compute in load_adjacencies square_rows.
Definition square_cities : gmap string (Z * Z) :=
  {[ "A" := (0, 0)%Z; "B" := (1, 0)%Z; "C" := (3, 0)%Z; "D" := (2, 1)%Z ]}.

(** ** Paths of a graph *)

(** [path] runs from [start] to [goal] along the neighbor lists of
    [graph]: it begins with [start], ends with [goal], and each city after
    the first is in the neighbor list of the city before it. *)
Definition valid_path (graph : Graph) (start goal : string) (path : Path) : Prop :=
  head path = Some start ∧
  last path = Some goal ∧
  ∀ (i : nat) (a b : string),
    path !! i = Some a → path !! S i = Some b → b ∈ neighbors graph a.

(** Number of edges of a path. *)
Definition edges (path : Path) : nat := length path - 1.

(** [walk graph a l c]: the cities [l] visited in turn after [a], each a
    neighbor of the one before, lead to [c]. *)
Inductive walk (graph : Graph) : string → list string → string → Prop :=
  | walk_nil (a : string) : walk graph a [] a
  | walk_cons (a b c : string) (l : list string) :
      b ∈ neighbors graph a → walk graph b l c → walk graph a (b :: l) c.

(** The invariant of the adjacency list: neighbor lists are mutual. *)
Definition symmetric (graph : Graph) : Prop :=
  ∀ a b : string, b ∈ neighbors graph a → a ∈ neighbors graph b.

(** [reachable graph start n]: some walk leads from [start] to [n]. *)
Definition reachable (graph : Graph) (start n : string) : Prop :=
  ∃ l, walk graph start l n.

Definition is_Ok {A : Type} (m : Err A) : Prop := ∃ a, m = Ok a.

(** ** A bound on the number of turns of a search loop *)

(** The entries the loop can still push: each city of the graph that is
    not yet visited counts for one more than its neighbor list. *)
Definition graph_weight (graph : Graph) (visited : gset string) : nat :=
  map_fold (λ c ns acc, if decide (c ∈ visited) then acc else S (length ns) + acc)
    0 graph.

Definition search_bound (graph : Graph) : nat := 2 + graph_weight graph ∅.

(** ** What the frontier holds *)

(** An entry [(n, path)] of the frontier: [path] is a walk from [start]
    that ends in [n], and its cities before [n] are visited and
    distinct. *)
Definition entry_ok (graph : Graph) (start : string) (visited : gset string)
    (e : string * Path) : Prop :=
  ∃ l p', e.2 = start :: l ∧ walk graph start l e.1 ∧
          e.2 = p' ++ [e.1] ∧ NoDup p' ∧ ∀ x, x ∈ p' → x ∈ visited.

(** A clock on which every call of the measured function takes 5 and
    nothing else takes time, and [iddfs] with its default depth as the
    measured function. *)
Definition ticking : World (H := Z_Float) :=
  mkWorld (λ h, 5 * Z.of_nat (length (invocations h)))%Z [].
Definition timed_iddfs (args : gmap string (list string) * string * string)
    : Err (value (H := Z_Float)) :=
  let '(graph, start, goal) := args in
  Ok (value_of_result (iddfs graph start goal default_max_depth)).

(** ** Loop invariants *)

(** The invariant shared by the loops of [bfs] and [dfs], and the measure
    that their turns decrease. *)
Definition frontier_ok (graph : Graph) (start goal : string)
    (st : list (string * Path) * gset string) : Prop :=
  Forall (entry_ok graph start st.2) st.1 ∧ goal ∉ st.2.

Definition frontier_size (graph : Graph) (st : list (string * Path) * gset string) : nat :=
  length st.1 + graph_weight graph st.2.

(** The queue of [bfs] is [q1 ++ q2], the paths of [q1] having [ℓ] edges
    and those of [q2] one more.  Every city within fewer than [ℓ] edges of
    [start] is visited; every city within [ℓ] edges is visited or waits in
    [q1]; every neighbor of a visited city is visited or waits in the
    queue. *)
Definition bfs_level (graph : Graph) (start : string) (ℓ : nat)
    (q1 q2 : list (string * Path)) (visited : gset string) : Prop :=
  Forall (λ e, length e.2 = S ℓ) q1 ∧
  Forall (λ e, length e.2 = S (S ℓ)) q2 ∧
  (∀ w l, walk graph start l w → length l < ℓ → w ∈ visited) ∧
  (∀ w l, walk graph start l w → length l = ℓ → w ∈ visited ∨ ∃ p, (w, p) ∈ q1) ∧
  (∀ v w, v ∈ visited → w ∈ neighbors graph v → w ∈ visited ∨ ∃ p, (w, p) ∈ q1 ++ q2).

Definition bfs_ok (graph : Graph) (start goal : string)
    (st : list (string * Path) * gset string) : Prop :=
  frontier_ok graph start goal st ∧
  ∃ ℓ q1 q2, st.1 = q1 ++ q2 ∧ bfs_level graph start ℓ q1 q2 st.2.

Section HeapInvariants.
Context `{Float}.

(** The city and the path of a heap entry. *)
Definition bf_proj (e : F * string * list string) : string * Path := (e.1.2, e.2).
Definition as_proj (e : F * string * list string * F) : string * Path := (e.1.1.2, e.1.2).

Definition bf_ok (graph : Graph) (start goal : string)
    (st : list (F * string * list string) * gset string) : Prop :=
  Forall (λ e, entry_ok graph start st.2 (bf_proj e)) st.1 ∧ goal ∉ st.2.

Definition bf_size (graph : Graph) (st : list (F * string * list string) * gset string)
    : nat :=
  length st.1 + graph_weight graph st.2.

Definition as_ok (graph : Graph) (start goal : string)
    (st : list (F * string * list string * F) * gmap string F * gset string) : Prop :=
  Forall (λ e, entry_ok graph start st.2 (as_proj e)) st.1.1 ∧ goal ∉ st.2.

Definition as_size (graph : Graph)
    (st : list (F * string * list string * F) * gmap string F * gset string) : nat :=
  length st.1.1 + graph_weight graph st.2.
End HeapInvariants.

(** ** Fixtures *)

(** Twenty cities in a row, [a] to [t], joined to their neighbors by 19
    edges. *)
Definition line_names : list string :=
  ["a"; "b"; "c"; "d"; "e"; "f"; "g"; "h"; "i"; "j";
   "k"; "l"; "m"; "n"; "o"; "p"; "q"; "r"; "s"; "t"].
Definition line_rows : list (list string) :=
  zip_with (λ a b, [a; b]) line_names (tail line_names).
Definition line : Graph := Eval vm_compute in load_adjacencies line_rows.

(** A rank for each city, to bound the length of walks from below. *)
Definition rank_of (ranks : gmap string nat) (x : string) : nat := default 0 (ranks !! x).
Definition line_ranks : gmap string nat := list_to_map (zip line_names (seq 0 20)).
Definition square_ranks : gmap string nat := {[ "A" := 0; "B" := 1; "D" := 1; "C" := 2 ]}.

(** The coordinates of the square without those of D, and with those of
    a city Z that is not in the graph. *)
Definition cities_without_D : gmap string (Z * Z) := delete "D" square_cities.
Definition cities_with_Z : gmap string (Z * Z) := <["Z" := (7, 7)%Z]> square_cities.

(** Two cities joined by one edge, and coordinates for A and for a city Z
    outside the graph only. *)
Definition pair_graph : Graph := Eval vm_compute in load_adjacencies [["A"; "B"]].
Definition cities_A_Z : gmap string (Z * Z) := {[ "A" := (0, 0)%Z; "Z" := (7, 7)%Z ]}.

#[global] Instance is_Ok_dec {A : Type} (m : Err A) : Decision (is_Ok m).
Proof.
  destruct m as [a|e]; [left; by exists a|right; by intros [a ?]].
Defined.

(** ** Where the heuristic is evaluated *)

Section Evaluations.
Context `{Float} `{!Heapq (F * string * list string)} `{!Heapq (F * string * list string * F)}.

(** The turn of [best_first_search] taken from state [st] evaluates the
    heuristic on [n]: the turn pops a city that is neither the goal nor
    visited, [n] is one of its neighbors, and the evaluations for the
    neighbors before [n] have not raised. *)
Definition bf_evaluates (graph : Graph) (cities : gmap string (F * F)) (goal : string)
    (st : list (F * string * list string) * gset string) (n : string) : Prop :=
  ∃ h current path pq l1 l2,
    st.1 ≠ [] ∧ heappop st.1 = Some ((h, current, path), pq) ∧
    current ≠ goal ∧ (current ∉ st.2) ∧
    neighbors graph current = l1 ++ n :: l2 ∧
    Forall (λ x, is_Ok (heuristic cities goal x)) l1.

(** The same for a turn of [a_star]. *)
Definition as_evaluates (graph : Graph) (cities : gmap string (F * F)) (goal : string)
    (st : list (F * string * list string * F) * gmap string F * gset string) (n : string)
    : Prop :=
  ∃ f current path cost open_set l1 l2,
    st.1.1 ≠ [] ∧ heappop st.1.1 = Some ((f, current, path, cost), open_set) ∧
    current ≠ goal ∧ (current ∉ st.2) ∧
    neighbors graph current = l1 ++ n :: l2 ∧
    Forall (λ x, is_Ok (heuristic cities goal x)) l1.


End Evaluations.

(** ** Counting the calls of [dls] *)







(** ** Floats with a range *)




(** * Further definitions *)

(** ** Loading the coordinates *)

(** What [load_cities] ends with: the dict it returns, or the
    [ValueError] that [float] raises on a text that is not a number. *)
Inductive loaded (A : Type) : Type :=
  | Loaded (a : A)
  | ValueError (text : string).
Arguments Loaded {A} a.
Arguments ValueError {A} text.

Section LoadCities.
Context `{Float}.

(** [float(text)], [None] where it raises [ValueError]. *)
Variable float_of_string : string → option F.

(** The body of [for row in reader] in [load_cities]; [row] is a row of
    the CSV reader.  A row that does not have three fields is skipped;
    [float(lat)] is evaluated before [float(lon)]. *)
Definition cities_row (cities : gmap string (F * F)) (row : list string)
    : loaded (gmap string (F * F)) :=
  match row with
  | [city; lat; lon] =>
      match float_of_string lat with
      | None => ValueError lat
      | Some x =>
          match float_of_string lon with
          | None => ValueError lon
          | Some y => Loaded (<[city := (x, y)]> cities)
          end
      end
  | _ => Loaded cities
  end.

Fixpoint cities_rows (cities : gmap string (F * F)) (rows : list (list string))
    : loaded (gmap string (F * F)) :=
  match rows with
  | [] => Loaded cities
  | row :: rows' =>
      match cities_row cities row with
      | Loaded cities' => cities_rows cities' rows'
      | ValueError text => ValueError text
      end
  end.

(** [rows] are the rows of the CSV reader over the file;
    [next(reader, None)] drops the first of them, if there is one. *)
Definition load_cities (rows : list (list string)) : loaded (gmap string (F * F)) :=
  cities_rows ∅ (tail rows).

(** A row of three fields whose two numbers [float] accepts. *)
Definition row_parses (row : list string) : Prop :=
  match row with
  | [_; lat; lon] => is_Some (float_of_string lat) ∧ is_Some (float_of_string lon)
  | _ => True
  end.
End LoadCities.

(** ** Measures and invariants for the further properties *)

(** The sum of the lengths of the neighbor lists. *)
Definition total_degree (graph : Graph) : nat :=
  map_fold (λ _ ns acc, length ns + acc) 0 graph.

(** The cities in [nodes] (those waiting in a frontier) and the visited
    ones cover what the search has seen: the start, and every neighbor of
    a visited city. *)
Definition covered (graph : Graph) (start : string) (nodes : list string)
    (visited : gset string) : Prop :=
  (start ∈ visited ∨ start ∈ nodes) ∧
  ∀ v w, v ∈ visited → w ∈ neighbors graph v → w ∈ visited ∨ w ∈ nodes.

(** The same for [a_star], whose [g_score] records the cities it has
    pushed: each of them is visited or still waits in [nodes]. *)
Definition as_covered (graph : Graph) (start : string) (nodes : list string)
    (scored visited : gset string) : Prop :=
  start ∈ scored ∧
  (∀ v w, v ∈ visited → w ∈ neighbors graph v → w ∈ scored) ∧
  (∀ w, w ∈ scored → w ∈ visited ∨ w ∈ nodes).

(** ** Further fixtures *)

(** Two pairs of cities with no edge between the pairs. *)
Definition islands : Graph := Eval vm_compute in load_adjacencies [["A"; "B"]; ["C"; "D"]].

(** [float] on integer coordinates: an optional minus sign and decimal
    digits. *)
Fixpoint Z_of_digits (text : string) (acc : Z) : option Z :=
  match text with
  | EmptyString => Some acc
  | String a text' =>
      let n := Z.of_nat (Ascii.nat_of_ascii a) in
      if ((48 <=? n) && (n <=? 57))%Z then Z_of_digits text' (10 * acc + (n - 48))%Z
      else None
  end.

Definition Z_of_string (text : string) : option Z :=
  match text with
  | EmptyString => None
  | String a text' =>
      if Ascii.eqb a (Ascii.ascii_of_nat 45) then
        match text' with
        | EmptyString => None
        | _ => Z.opp <$> Z_of_digits text' 0
        end
      else Z_of_digits text 0
  end.

(** A coordinates file: a header, a city given twice, a short row. *)
Definition coordinate_rows : list (list string) :=
  [["city"; "lat"; "lon"]; ["A"; "1"; "2"]; ["B"; "5"]; ["A"; "3"; "-4"]; ["C"; "0"; "7"]].

(** * Properties *)

(** A decidable fact about a fixture, settled by evaluation. *)
Ltac by_evaluation := apply (bool_decide_unpack _); vm_compute; exact I.

(** ** Loops *)

Section While.
Context {State R : Type} (body : State → State + R).

Lemma while_mono (fuel fuel' : nat) (s : State) (r : R) :
  while body fuel s = Some r → fuel ≤ fuel' → while body fuel' s = Some r.
Proof.
  revert fuel' s. induction fuel as [|fuel IH]; intros fuel' s; [done|].
  destruct fuel' as [|fuel']; [lia|]. simpl.
  destruct (body s); [|done]. intros ? ?. apply IH; [done|lia].
Qed.

(** A property kept by every turn holds of the state the loop is left
    from. *)
Lemma while_invariant (I : State → Prop) :
  (∀ s s', I s → body s = inl s' → I s') →
  ∀ (fuel : nat) (s : State) (r : R),
    I s → while body fuel s = Some r → ∃ s', I s' ∧ body s' = inr r.
Proof.
  intros Hstep. induction fuel as [|fuel IH]; intros s r Hs; [done|]. simpl.
  destruct (body s) as [s'|r'] eqn:Hb.
  - apply IH. by eapply Hstep.
  - intros [= ->]. eauto.
Qed.

(** A loop whose turns decrease a measure is left within as many turns
    as the measure allows. *)
Lemma while_terminates (I : State → Prop) (μ : State → nat) :
  (∀ s s', I s → body s = inl s' → I s' ∧ μ s' < μ s) →
  ∀ (fuel : nat) (s : State), I s → μ s < fuel → is_Some (while body fuel s).
Proof.
  intros Hstep. induction fuel as [|fuel IH]; intros s Hs Hlt; [lia|]. simpl.
  destruct (body s) as [s'|r'] eqn:Hb; [|by eauto].
  destruct (Hstep s s' Hs Hb) as [Hs' Hμ]. apply IH; [done|lia].
Qed.

Lemma while_turns (k fuel : nat) (s s' : State) :
  turns body k s = Some s' → while body (k + fuel) s = while body fuel s'.
Proof.
  revert s. induction k as [|k IH]; intros s; simpl; [by intros [= ->]|].
  destruct (body s); [apply IH|done].
Qed.

End While.

(** ** Lists *)

Lemma pop_snoc {A : Type} (l : list A) (x : A) : pop (l ++ [x]) = Some (l, x).
Proof. induction l as [|y l IH]; simpl; [done|]. by rewrite IH. Qed.

Lemma pop_Some {A : Type} (l l' : list A) (x : A) :
  pop l = Some (l', x) → l = l' ++ [x].
Proof.
  revert l'. induction l as [|y l IH]; intros l'; simpl; [done|].
  destruct (pop l) as [[l'' z]|] eqn:Hp.
  - intros [= <- <-]. by rewrite (IH l'' eq_refl).
  - destruct l as [|z l]; [by intros [= <- <-]|].
    simpl in Hp. by destruct (pop l) as [[? ?]|].
Qed.

Lemma pop_None {A : Type} (l : list A) : pop l = None → l = [].
Proof. destruct l as [|x l]; [done|]. simpl. by destruct (pop l) as [[? ?]|]. Qed.

Lemma first_truthy_Some {A : Type} (f : A → option Path) (l : list A) (p : Path) :
  first_truthy f l = Some p → ∃ x, x ∈ l ∧ f x = Some p ∧ p ≠ [].
Proof.
  induction l as [|x l IH]; simpl; [done|].
  destruct (truthy (f x)) eqn:Ht.
  - intros Hf. exists x. rewrite Hf in Ht. split_and!; [left|done|].
    by intros ->.
  - intros Hf. destruct (IH Hf) as (y & ? & ? & ?). exists y. split_and!; [by right|done..].
Qed.

Lemma first_truthy_None {A : Type} (f : A → option Path) (l : list A) :
  (∀ x, x ∈ l → f x = None) → first_truthy f l = None.
Proof.
  induction l as [|x l IH]; simpl; [done|]. intros Hl.
  rewrite (Hl x) by left. simpl. apply IH. intros y ?. apply Hl. by right.
Qed.

(** ** Paths *)

Lemma walk_snoc (graph : Graph) (a b c : string) (l : list string) :
  walk graph a l b → c ∈ neighbors graph b → walk graph a (l ++ [c]) c.
Proof.
  induction 1 as [a|a b' c' l Hab Hw IH]; intros Hc; simpl.
  - apply walk_cons; [done|apply walk_nil].
  - apply walk_cons; [done|by apply IH].
Qed.

Lemma walk_app (graph : Graph) (a b c : string) (l1 l2 : list string) :
  walk graph a l1 b → walk graph b l2 c → walk graph a (l1 ++ l2) c.
Proof. induction 1; simpl; [done|]. intros. apply walk_cons; auto. Qed.

Lemma walk_last (graph : Graph) (a c : string) (l : list string) :
  walk graph a l c → last (a :: l) = Some c.
Proof.
  induction 1 as [a|a b c l Hab Hw IH]; [done|].
  by rewrite last_cons_cons.
Qed.

Lemma walk_valid_path (graph : Graph) (a c : string) (l : list string) :
  walk graph a l c → valid_path graph a c (a :: l).
Proof.
  intros Hw. split_and!; [done|by eapply walk_last|].
  induction Hw as [a|a b c l Hab Hw IH]; intros i x y Hx Hy.
  - by destruct i.
  - destruct i as [|i]; simpl in *.
    + by simplify_eq.
    + by eapply IH.
Qed.

Lemma valid_path_walk (graph : Graph) (start goal : string) (p : Path) :
  valid_path graph start goal p → ∃ l, p = start :: l ∧ walk graph start l goal.
Proof.
  intros (Hh & Hl & Hc). destruct p as [|a l]; [done|].
  simpl in Hh. simplify_eq. exists l. split; [done|].
  revert start Hl Hc. induction l as [|b l IH]; intros a Hl Hc.
  - simpl in Hl. simplify_eq. apply walk_nil.
  - apply walk_cons.
    + by apply (Hc 0).
    + apply IH; [by rewrite last_cons_cons in Hl|].
      intros i x y Hx Hy. by apply (Hc (S i)).
Qed.

(** ** The adjacency list built by [load_adjacencies] *)

Lemma neighbors_setdefault_append (graph : Graph) (a b x : string) :
  neighbors (setdefault_append graph a b) x =
  if decide (x = a) then neighbors graph a ++ [b] else neighbors graph x.
Proof.
  unfold neighbors, setdefault_append. case_decide as Hx.
  - subst. by rewrite lookup_insert_eq.
  - by rewrite lookup_insert_ne.
Qed.

(** A well-formed row adds its two directions and nothing else. *)
Lemma elem_of_neighbors_load_row (graph : Graph) (city1 city2 a b : string) :
  b ∈ neighbors (load_row graph [city1; city2]) a ↔
  b ∈ neighbors graph a ∨ (a = city1 ∧ b = city2) ∨ (a = city2 ∧ b = city1).
Proof.
  unfold load_row. rewrite !neighbors_setdefault_append.
  destruct (decide (a = city2)) as [->|Ha2].
  - destruct (decide (city2 = city1)) as [->|H21];
      rewrite ?elem_of_app, ?list_elem_of_singleton; tauto.
  - destruct (decide (a = city1)) as [->|Ha1];
      rewrite ?elem_of_app, ?list_elem_of_singleton; tauto.
Qed.

Lemma neighbors_load_row_fst (graph : Graph) (a b : string) :
  a ≠ b → neighbors (load_row graph [a; b]) a = neighbors graph a ++ [b].
Proof.
  intros Hab. unfold load_row.
  rewrite neighbors_setdefault_append, decide_False by done.
  by rewrite neighbors_setdefault_append, decide_True.
Qed.

Lemma load_row_symmetric (graph : Graph) (row : list string) :
  symmetric graph → symmetric (load_row graph row).
Proof.
  intros Hsym.
  destruct row as [|city1 [|city2 [|? ?]]]; try done.
  intros a b. rewrite !elem_of_neighbors_load_row.
  specialize (Hsym a b). tauto.
Qed.

Lemma foldl_load_row_symmetric (rows : list (list string)) (graph : Graph) :
  symmetric graph → symmetric (foldl load_row graph rows).
Proof.
  revert graph. induction rows as [|row rows IH]; intros graph Hsym; [done|].
  simpl. by apply IH, load_row_symmetric.
Qed.

Lemma load_adjacencies_mutual (rows : list (list string)) :
  symmetric (load_adjacencies rows).
Proof.
  apply foldl_load_row_symmetric. intros a b. unfold neighbors.
  by rewrite lookup_empty, elem_of_nil.
Qed.

(** C9: the graph [load_adjacencies] builds from any sequence of rows has
    mutual neighbor lists: whenever [b] is in the list of [a], [a] is in
    the list of [b].  The lists are not deduplicated: an edge between two
    different cities declared twice puts the neighbor twice in the
    list. *)
Theorem load_adjacencies_symmetric (rows : list (list string)) :
  symmetric (load_adjacencies rows) ∧
  ∀ a b : string, a ≠ b →
    neighbors (load_adjacencies [[a; b]; [a; b]]) a = [b; b].
Proof.
  split; [apply load_adjacencies_mutual|].
  intros a b Hab. unfold load_adjacencies. cbn [foldl].
    rewrite !neighbors_load_row_fst by done.
    unfold neighbors. by rewrite lookup_empty.
Qed.

Lemma load_adjacencies_symmetric_witness :
  symmetric (load_adjacencies square_rows) ∧
  neighbors (load_adjacencies [["A"; "B"]; ["A"; "B"]]) "A" = ["B"; "B"].
Proof.
  split.
  - apply (load_adjacencies_symmetric square_rows).
  - apply (load_adjacencies_symmetric []). done.
Defined.

(** ** The timing wrapper *)

Section TimingProperties.
Context `{Float}.

Lemma invocations_app (h1 h2 : list event) :
  invocations (h1 ++ h2) = invocations h1 ++ invocations h2.
Proof. unfold invocations. apply omap_app. Qed.

(** C7, as the program has it: [measure_time] reads the clock, then
    enters the search function, once, then reads the clock again, with
    nothing else in between, prints the difference of the two readings
    and returns the function's result itself; the duration is printed,
    not returned.  When the function raises, the exception passes
    through after the first reading and nothing is printed. *)
Theorem measure_time_returns_result {A : Type} (search_function : A → Err value)
    (args : A) (w : World) :
  let start := clock w (trace w) in
  let called := trace w ++ [EvPerfCounter start; EvCall (search_function args)] in
  let end_ := clock w called in
  let w' := (measure_time search_function args w).2 in
  (measure_time search_function args w).1 = search_function args ∧
  clock w' = clock w ∧
  trace w' =
    match search_function args with
    | Ok _ => called ++ [EvPerfCounter end_; EvPrint (time_taken (fsub end_ start))]
    | Raise _ => called
    end ∧
  invocations (trace w') = invocations (trace w) ++ [search_function args].
Proof.
  unfold measure_time, call, perf_counter, print. simpl.
  destruct (search_function args) as [result|e] eqn:Hcall; simpl.
  - split_and!; [done..| |].
    + by rewrite <-!app_assoc.
    + rewrite !invocations_app. simpl. by rewrite !app_nil_r.
  - split_and!; [done..| |].
    + by rewrite <-!app_assoc.
    + rewrite !invocations_app. simpl. by rewrite !app_nil_r.
Qed.
End TimingProperties.

(** C7 refuted as stated: on the square, [measure_time] hands back the
    path alone where the claim has the pair of the path and the
    duration. *)
Lemma measure_time_not_a_pair :
  (measure_time timed_iddfs (square, "A", "C") ticking).1 = Ok (VList ["A"; "B"; "C"]) ∧
  (run timed_iddfs (square, "A", "C") ticking).1 =
    Ok (VTuple (VList ["A"; "B"; "C"]) (VFloat 5%Z)) ∧
  (measure_time timed_iddfs (square, "A", "C") ticking).1 ≠
    (run timed_iddfs (square, "A", "C") ticking).1.
Proof. split_and!; [by vm_compute..|]. by vm_compute. Qed.

(** ** Iterative deepening *)

(** A path found by [dls] extends the path passed in by a walk from
    [node] to the goal of fewer than [depth] edges, through cities not on
    the path passed in and not repeated. *)
Lemma dls_Some (graph : Graph) (goal : string) (depth : nat) (node : string) (path p : Path) :
  dls graph goal depth node path = Some p →
  ∃ l, p = path ++ l ∧ walk graph node l goal ∧ length l < depth ∧
       (NoDup path → NoDup p).
Proof.
  revert node path. induction depth as [|depth IH]; intros node path; simpl; [done|].
  case_decide as Hg.
  - intros [= <-]. exists []. rewrite app_nil_r. subst.
    split_and!; [done|apply walk_nil|simpl; lia|done].
  - intros Hf. apply first_truthy_Some in Hf as (neighbor & Hn & Hd & _).
    case_decide as Hin; [done|].
    apply IH in Hd as (l & -> & Hw & Hlen & Hnd).
    exists (neighbor :: l). split_and!.
    + by rewrite <-app_assoc.
    + by apply walk_cons.
    + simpl. lia.
    + intros Hp. apply Hnd. apply NoDup_app. split_and!; [done| |apply NoDup_singleton].
      intros x Hx ->%list_elem_of_singleton. done.
Qed.

Lemma iddfs_Some (graph : Graph) (start goal : string) (max_depth : Z) (p : Path) :
  iddfs graph start goal max_depth = Some p →
  ∃ depth : nat, (Z.of_nat depth < max_depth)%Z ∧ dls graph goal depth start [start] = Some p.
Proof.
  unfold iddfs, range. intros Hf.
  apply first_truthy_Some in Hf as (depth & Hin & Hd & _).
  exists depth. split; [|done].
  apply elem_of_seq in Hin. lia.
Qed.

(** What [iddfs] returns is a path from [start] to [goal] without
    repetition, of at most [max_depth - 2] edges. *)
Lemma iddfs_path (graph : Graph) (start goal : string) (max_depth : Z) (p : Path) :
  iddfs graph start goal max_depth = Some p →
  valid_path graph start goal p ∧ NoDup p ∧ (Z.of_nat (edges p) ≤ max_depth - 2)%Z.
Proof.
  intros (depth & Hlt & Hd)%iddfs_Some.
  apply dls_Some in Hd as (l & -> & Hw & Hlen & Hnd). simpl.
  split_and!.
  - by apply walk_valid_path.
  - apply Hnd, NoDup_singleton.
  - unfold edges. simpl. lia.
Qed.

(** C5: when every path from [start] to [goal] has more than [D] edges,
    [iddfs] with [max_depth = D] returns [None], whatever longer paths
    there are. *)
Theorem iddfs_depth_bound (graph : Graph) (start goal : string) (D : Z) :
  start ≠ goal →
  (∀ p : Path, valid_path graph start goal p → (D < Z.of_nat (edges p))%Z) →
  iddfs graph start goal D = None.
Proof.
  intros _ Hlong. destruct (iddfs graph start goal D) as [p|] eqn:Hi; [|done].
  apply iddfs_path in Hi as (Hp & _ & Hle). apply Hlong in Hp. lia.
Qed.

(** ** The turn bound *)

Lemma graph_weight_insert (graph : Graph) (visited : gset string) (c : string)
    (ns : list string) :
  graph !! c = None →
  graph_weight (<[c := ns]> graph) visited =
  if decide (c ∈ visited) then graph_weight graph visited
  else S (length ns) + graph_weight graph visited.
Proof.
  intros Hc. unfold graph_weight. rewrite map_fold_insert_L; [done| |done].
  intros j1 j2 z1 z2 y _ _ _. repeat case_decide; lia.
Qed.

Lemma graph_weight_mono (graph : Graph) (visited : gset string) (c : string) :
  graph_weight graph ({[c]} ∪ visited) ≤ graph_weight graph visited.
Proof.
  induction graph as [|k ns graph Hk IH] using map_ind.
  - unfold graph_weight. by rewrite !map_fold_empty.
  - rewrite !graph_weight_insert by done.
    repeat case_decide; try lia; set_solver.
Qed.

(** Visiting a city uses up its share of the weight, which pays for the
    entries pushed for its neighbors. *)
Lemma graph_weight_visit (graph : Graph) (visited : gset string) (c : string) :
  c ∉ visited →
  graph_weight graph ({[c]} ∪ visited) + length (neighbors graph c) ≤
  graph_weight graph visited.
Proof.
  intros Hc. induction graph as [|k ns graph Hk IH] using map_ind.
  - unfold graph_weight, neighbors. by rewrite !map_fold_empty, lookup_empty.
  - rewrite !graph_weight_insert by done. unfold neighbors in *.
    destruct (decide (k = c)) as [->|Hkc].
    + rewrite lookup_insert_eq. simpl.
      rewrite decide_True by set_solver. rewrite decide_False by done.
      pose proof (graph_weight_mono graph visited c). lia.
    + rewrite lookup_insert_ne by done.
      repeat case_decide; try lia; set_solver.
Qed.

(** ** Frontier entries *)

Lemma entry_ok_start (graph : Graph) (start : string) (visited : gset string) :
  entry_ok graph start visited (start, [start]).
Proof.
  exists [], []. simpl. split_and!; [done|apply walk_nil|done|apply NoDup_nil_2|].
  intros x Hx. by apply elem_of_nil in Hx.
Qed.

Lemma entry_ok_mono (graph : Graph) (start : string) (visited visited' : gset string)
    (e : string * Path) :
  visited ⊆ visited' → entry_ok graph start visited e → entry_ok graph start visited' e.
Proof.
  intros Hsub (l & p' & ? & ? & ? & ? & Hv). exists l, p'.
  split_and!; [done..|]. intros x Hx. apply Hsub. by apply Hv.
Qed.

(** The entry pushed for a neighbor of the city being visited. *)
Lemma entry_ok_extend (graph : Graph) (start : string) (visited : gset string)
    (current neighbor : string) (path : Path) :
  entry_ok graph start visited (current, path) →
  current ∉ visited →
  neighbor ∈ neighbors graph current →
  entry_ok graph start ({[current]} ∪ visited) (neighbor, path ++ [neighbor]).
Proof.
  intros (l & p' & Hl & Hw & Hp & Hnd & Hv) Hc Hn. simpl in *.
  exists (l ++ [neighbor]), path. simpl. split_and!.
  - by rewrite Hl.
  - by eapply walk_snoc.
  - done.
  - rewrite Hp. apply NoDup_app. split_and!; [done| |apply NoDup_singleton].
    intros x Hx ->%list_elem_of_singleton. apply Hc. by apply Hv.
  - intros x. rewrite Hp, elem_of_app, list_elem_of_singleton.
    intros [Hx| ->]; [|set_solver]. apply Hv in Hx. set_solver.
Qed.

(** An entry for the goal holds a path to it without repetition, as the
    goal is never visited. *)
Lemma entry_ok_goal (graph : Graph) (start goal : string) (visited : gset string)
    (path : Path) :
  entry_ok graph start visited (goal, path) →
  goal ∉ visited →
  valid_path graph start goal path ∧ NoDup path.
Proof.
  intros (l & p' & Hl & Hw & Hp & Hnd & Hv) Hg. simpl in *. split.
  - rewrite Hl. by apply walk_valid_path.
  - rewrite Hp. apply NoDup_app. split_and!; [done| |apply NoDup_singleton].
    intros x Hx ->%list_elem_of_singleton. apply Hg. by apply Hv.
Qed.

Lemma entry_ok_reachable (graph : Graph) (start : string) (visited : gset string)
    (e : string * Path) :
  entry_ok graph start visited e → reachable graph start e.1.
Proof. intros (l & _ & _ & Hw & _). by exists l. Qed.

(** The entries pushed in one turn of [bfs] and [dfs]. *)
Lemma Forall_entry_ok_pushed (graph : Graph) (start : string) (visited : gset string)
    (current : string) (path : Path) :
  entry_ok graph start visited (current, path) →
  current ∉ visited →
  Forall (entry_ok graph start ({[current]} ∪ visited))
    ((λ neighbor, (neighbor, path ++ [neighbor])) <$> neighbors graph current).
Proof.
  intros He Hc. apply Forall_fmap, Forall_forall. intros neighbor Hn.
  by apply entry_ok_extend.
Qed.

(** ** Breadth-first and depth-first search: paths and termination *)

Section Uninformed.
Context (graph : Graph) (start goal : string).

Lemma frontier_ok_init : frontier_ok graph start goal ([(start, [start])], ∅).
Proof.
  split; simpl; [|set_solver].
  apply Forall_singleton, entry_ok_start.
Qed.

Lemma frontier_size_init : frontier_size graph ([(start, [start])], ∅) < search_bound graph.
Proof. unfold frontier_size, search_bound. simpl. lia. Qed.

(** One turn that pops [(current, path)] and leaves [rest]. *)
Lemma frontier_turn (rest : list (string * Path)) (visited : gset string)
    (current : string) (path : Path) :
  Forall (entry_ok graph start visited) rest →
  entry_ok graph start visited (current, path) →
  goal ∉ visited → current ≠ goal → current ∉ visited →
  let st' := (rest ++ ((λ neighbor, (neighbor, path ++ [neighbor])) <$> neighbors graph current),
              {[current]} ∪ visited) in
  frontier_ok graph start goal st' ∧
  frontier_size graph st' < frontier_size graph (rest ++ [(current, path)], visited).
Proof.
  intros Hrest He Hg Hcg Hcv. simpl. split.
  - split; simpl; [|set_solver]. apply Forall_app. split.
    + eapply Forall_impl; [done|]. intros e. apply entry_ok_mono. set_solver.
    + by apply Forall_entry_ok_pushed.
  - unfold frontier_size. simpl. rewrite !length_app, length_fmap. simpl.
    pose proof (graph_weight_visit graph visited current Hcv). lia.
Qed.

Lemma bfs_body_step (s s' : list (string * Path) * gset string) :
  frontier_ok graph start goal s → bfs_body graph goal s = inl s' →
  frontier_ok graph start goal s' ∧ frontier_size graph s' < frontier_size graph s.
Proof.
  destruct s as [queue visited]. intros [Hq Hg]. simpl in *.
  destruct queue as [|[current path] queue]; [done|].
  apply Forall_cons in Hq as [He Hq].
  case_decide as Hcg; [done|]. case_decide as Hcv.
  - intros [= <-]. split; [by split|]. unfold frontier_size. simpl. lia.
  - intros [= <-].
    destruct (frontier_turn queue visited current path) as [? Hlt]; try done.
    split; [done|]. unfold frontier_size in *. simpl in *.
    rewrite !length_app in *. simpl in *. lia.
Qed.

Lemma dfs_body_step (s s' : list (string * Path) * gset string) :
  frontier_ok graph start goal s → dfs_body graph goal s = inl s' →
  frontier_ok graph start goal s' ∧ frontier_size graph s' < frontier_size graph s.
Proof.
  destruct s as [stack visited]. intros [Hq Hg]. simpl in *.
  destruct (pop stack) as [[rest [current path]]|] eqn:Hpop; [|done].
  apply pop_Some in Hpop as ->.
  apply Forall_app in Hq as [Hq He]. rewrite Forall_singleton in He.
  case_decide as Hcg; [done|]. case_decide as Hcv.
  - intros [= <-]. split; [by split|]. unfold frontier_size. simpl.
    rewrite length_app. simpl. lia.
  - intros [= <-]. by apply (frontier_turn rest visited current path).
Qed.

Lemma bfs_terminates (fuel : nat) :
  search_bound graph ≤ fuel → is_Some (bfs fuel graph start goal).
Proof.
  intros Hfuel. unfold bfs.
  apply (while_terminates _ (frontier_ok graph start goal) (frontier_size graph)).
  - apply bfs_body_step.
  - apply frontier_ok_init.
  - pose proof frontier_size_init. lia.
Qed.

Lemma dfs_terminates (fuel : nat) :
  search_bound graph ≤ fuel → is_Some (dfs fuel graph start goal).
Proof.
  intros Hfuel. unfold dfs.
  apply (while_terminates _ (frontier_ok graph start goal) (frontier_size graph)).
  - apply dfs_body_step.
  - apply frontier_ok_init.
  - pose proof frontier_size_init. lia.
Qed.

Lemma bfs_path (fuel : nat) (p : Path) :
  bfs fuel graph start goal = Some (Some p) → valid_path graph start goal p ∧ NoDup p.
Proof.
  unfold bfs. intros Hrun.
  apply (while_invariant _ (frontier_ok graph start goal)) in Hrun
    as ([queue visited] & [Hq Hg] & Hb).
  - simpl in *. destruct queue as [|[current path] queue]; [done|].
    apply Forall_cons in Hq as [He _].
    case_decide as Hcg; [|by case_decide]. simplify_eq.
    by eapply entry_ok_goal.
  - intros s s' Hs Hb. by apply bfs_body_step in Hb as [? _].
  - apply frontier_ok_init.
Qed.

Lemma dfs_path (fuel : nat) (p : Path) :
  dfs fuel graph start goal = Some (Some p) → valid_path graph start goal p ∧ NoDup p.
Proof.
  unfold dfs. intros Hrun.
  apply (while_invariant _ (frontier_ok graph start goal)) in Hrun
    as ([stack visited] & [Hq Hg] & Hb).
  - simpl in *.
    destruct (pop stack) as [[rest [current path]]|] eqn:Hpop; [|done].
    apply pop_Some in Hpop as ->.
    apply Forall_app in Hq as [_ He]. rewrite Forall_singleton in He.
    case_decide as Hcg; [|by case_decide]. simplify_eq.
    by eapply entry_ok_goal.
  - intros s s' Hs Hb. by apply dfs_body_step in Hb as [? _].
  - apply frontier_ok_init.
Qed.
End Uninformed.

(** ** The heuristic *)

Section HeuristicProperties.
Context `{Float}.

Lemma heuristic_KeyError (cities : gmap string (F * F)) (goal city : string) :
  cities !! city = None → heuristic cities goal city = Raise (KeyError city).
Proof. intros Hc. unfold heuristic, coordinates. by rewrite Hc. Qed.

Lemma heuristic_Ok_coordinates (cities : gmap string (F * F)) (goal city : string) :
  is_Ok (heuristic cities goal city) → is_Some (cities !! city) ∧ is_Some (cities !! goal).
Proof.
  intros [h Hh]. unfold heuristic, coordinates in Hh.
  destruct (cities !! city) as [[lat1 lon1]|]; [|done].
  destruct (cities !! goal) as [[lat2 lon2]|]; [|done].
  eauto.
Qed.
End HeuristicProperties.

(** ** Best-first search: paths and termination *)

Section BestFirst.
Context `{Float} `{!Heapq (F * string * list string)}.
Context (graph : Graph) (cities : gmap string (F * F)) (start goal : string).

(** The neighbor loop pushes one entry per neighbor. *)
Lemma for_each_bf_push_Ok (path : Path) (ns : list string)
    (pq pq' : list (F * string * list string)) :
  for_each (bf_push cities goal path) pq ns = Ok pq' →
  length pq' = length pq + length ns ∧
  ∀ Q : F * string * list string → Prop,
    Forall Q pq → (∀ h n, n ∈ ns → Q (h, n, path ++ [n])) → Forall Q pq'.
Proof.
  revert pq. induction ns as [|n ns IH]; intros pq; simpl.
  - intros [= <-]. split; [lia|done].
  - unfold bf_push at 1.
    destruct (heuristic cities goal n) as [h|e] eqn:Hh; simpl; [|done].
    intros Hrest. apply IH in Hrest as [Hlen HQ]. split.
    + rewrite Hlen, (Permutation_length (heappush_perm pq _)). simpl. lia.
    + intros Q Hpq Hns. apply HQ.
      * rewrite (heappush_perm pq _). apply Forall_cons. split; [|done].
        apply Hns. left.
      * intros h' n' Hn'. apply Hns. by right.
Qed.

(** The neighbor loop raises only what an evaluation of the heuristic on
    one of the neighbors raises. *)
Lemma for_each_bf_push_Raise (path : Path) (ns : list string)
    (pq : list (F * string * list string)) (e : exn) :
  for_each (bf_push cities goal path) pq ns = Raise e →
  ∃ n, n ∈ ns ∧ heuristic cities goal n = Raise e.
Proof.
  revert pq. induction ns as [|n ns IH]; intros pq; simpl; [done|].
  unfold bf_push at 1.
  destruct (heuristic cities goal n) as [h|e'] eqn:Hh; simpl.
  - intros (n' & ? & ?)%IH. exists n'. split; [by right|done].
  - intros [= <-]. exists n. split; [left|done].
Qed.

Lemma bf_body_step (s s' : list (F * string * list string) * gset string) :
  bf_ok graph start goal s → bf_body graph cities goal s = inl s' →
  bf_ok graph start goal s' ∧ bf_size graph s' < bf_size graph s.
Proof.
  destruct s as [pq visited]. intros [Hq Hg]. simpl in *.
  destruct pq as [|e0 pq0]; [done|].
  destruct (heappop (e0 :: pq0)) as [[[[h current] path] pq]|] eqn:Hpop; [|done].
  apply heappop_perm in Hpop. rewrite Hpop in Hq.
  apply Forall_cons in Hq as [He Hq].
  apply Permutation_length in Hpop. unfold bf_size. simpl in *.
  case_decide as Hcg; [done|]. case_decide as Hcv.
  - intros [= <-]. split; [by split|]. simpl. lia.
  - destruct (for_each _ _ _) as [pq'|e] eqn:Hfor; [|done].
    intros [= <-]. apply for_each_bf_push_Ok in Hfor as [Hlen HQ]. simpl. split.
    + split; simpl; [|set_solver]. apply HQ.
      * eapply Forall_impl; [done|]. intros e. apply entry_ok_mono. set_solver.
      * intros h' n Hn. by apply (entry_ok_extend graph start visited current n path).
    + pose proof (graph_weight_visit graph visited current Hcv). lia.
Qed.

Lemma bf_ok_init (h : F) : bf_ok graph start goal ([(h, start, [start])], ∅).
Proof.
  split; simpl; [|set_solver].
  apply Forall_singleton, entry_ok_start.
Qed.

Lemma best_first_search_terminates (fuel : nat) :
  search_bound graph ≤ fuel → is_Some (best_first_search fuel graph cities start goal).
Proof.
  intros Hfuel. unfold best_first_search.
  destruct (heuristic cities goal start) as [h|e]; [|by eauto].
  apply (while_terminates _ (bf_ok graph start goal) (bf_size graph)).
  - apply bf_body_step.
  - apply bf_ok_init.
  - unfold bf_size, search_bound in *. simpl. lia.
Qed.

(** The state the loop is left from. *)
Lemma best_first_search_exit (fuel : nat) (o : Err (option Path)) :
  best_first_search fuel graph cities start goal = Some o →
  (∃ e, heuristic cities goal start = Raise e ∧ o = Raise e) ∨
  (∃ s, bf_ok graph start goal s ∧ bf_body graph cities goal s = inr o).
Proof.
  unfold best_first_search.
  destruct (heuristic cities goal start) as [h|e].
  - intros Hrun. right.
    apply (while_invariant _ (bf_ok graph start goal)) in Hrun; [done| |apply bf_ok_init].
    intros s s' Hs Hb. by apply bf_body_step in Hb as [? _].
  - intros [= <-]. left. by exists e.
Qed.

Lemma best_first_search_path (fuel : nat) (p : Path) :
  best_first_search fuel graph cities start goal = Some (Ok (Some p)) →
  valid_path graph start goal p ∧ NoDup p.
Proof.
  intros [(e & _ & ?)|([pq visited] & [Hq Hg] & Hb)]%best_first_search_exit; [done|].
  simpl in *. destruct pq as [|e0 pq0]; [done|].
  destruct (heappop (e0 :: pq0)) as [[[[h current] path] pq]|] eqn:Hpop; [|done].
  apply heappop_perm in Hpop. rewrite Hpop in Hq.
  apply Forall_cons in Hq as [He _].
  case_decide as Hcg.
  - simplify_eq. by eapply entry_ok_goal.
  - case_decide; [done|]. by destruct (for_each _ _ _).
Qed.

(** With the heuristic defined on every city that can be reached from
    [start], nothing is raised. *)
Lemma best_first_search_Ok (fuel : nat) (o : Err (option Path)) :
  (∀ n, reachable graph start n → is_Ok (heuristic cities goal n)) →
  best_first_search fuel graph cities start goal = Some o → is_Ok o.
Proof.
  intros Hcoord [(e & Hstart & _)|([pq visited] & [Hq Hg] & Hb)]%best_first_search_exit.
  { destruct (Hcoord start) as [h Hh]; [by exists []; apply walk_nil|]. congruence. }
  simpl in *. destruct pq as [|e0 pq0]; [by simplify_eq; eexists|].
  destruct (heappop_nonempty (e0 :: pq0)) as [[[[h current] path] pq] Hpop]; [done|].
  rewrite Hpop in Hb.
  apply heappop_perm in Hpop. rewrite Hpop in Hq.
  apply Forall_cons in Hq as [He _].
  case_decide as Hcg; [by simplify_eq; eexists|]. case_decide; [done|].
  destruct (for_each _ _ _) as [pq'|e] eqn:Hfor; [done|].
  apply for_each_bf_push_Raise in Hfor as (n & Hn & Hraise).
  apply entry_ok_reachable in He as [l Hw]. simpl in Hw.
  destruct (Hcoord n) as [h' Hh']; [|congruence].
  exists (l ++ [n]). by eapply walk_snoc.
Qed.
End BestFirst.

(** ** A* search: paths and termination *)

Section AStar.
Context `{Float} `{!Heapq (F * string * list string * F)}.
Context (graph : Graph) (cities : gmap string (F * F)) (start goal : string).

(** The neighbor loop pushes at most one entry per neighbor. *)
Lemma for_each_as_relax_Ok (path : Path) (cost : F) (ns : list string)
    (st st' : list (F * string * list string * F) * gmap string F) :
  for_each (as_relax cities goal path cost) st ns = Ok st' →
  length st'.1 ≤ length st.1 + length ns ∧
  ∀ Q : F * string * list string * F → Prop,
    Forall Q st.1 → (∀ f c n, n ∈ ns → Q (f, n, path ++ [n], c)) → Forall Q st'.1.
Proof.
  revert st. induction ns as [|n ns IH]; intros [open_set g_score]; simpl.
  - intros [= <-]. split; [simpl; lia|done].
  - destruct (heuristic cities goal n) as [h|e] eqn:Hh; simpl; [|done].
    destruct (match g_score !! n with Some g => flt (fadd cost h) g | None => true end).
    + unfold mret, Err_ret. intros Hrest. apply IH in Hrest as [Hlen HQ]. simpl in *. split.
      * rewrite (Permutation_length (heappush_perm open_set _)) in Hlen. simpl in Hlen. lia.
      * intros Q Hos Hns. apply HQ.
        -- rewrite (heappush_perm open_set _). apply Forall_cons. split; [|done].
           apply Hns. left.
        -- intros f c n' Hn'. apply Hns. by right.
    + unfold mret, Err_ret. intros Hrest. apply IH in Hrest as [Hlen HQ]. simpl in *. split; [lia|].
      intros Q Hos Hns. apply HQ; [done|].
      intros f c n' Hn'. apply Hns. by right.
Qed.

Lemma for_each_as_relax_Raise (path : Path) (cost : F) (ns : list string)
    (st : list (F * string * list string * F) * gmap string F) (e : exn) :
  for_each (as_relax cities goal path cost) st ns = Raise e →
  ∃ n, n ∈ ns ∧ heuristic cities goal n = Raise e.
Proof.
  revert st. induction ns as [|n ns IH]; intros [open_set g_score]; simpl; [done|].
  destruct (heuristic cities goal n) as [h|e'] eqn:Hh; simpl.
  - destruct (match g_score !! n with Some g => flt (fadd cost h) g | None => true end).
    + unfold mret, Err_ret. intros (n' & ? & ?)%IH. exists n'. split; [by right|done].
    + unfold mret, Err_ret. intros (n' & ? & ?)%IH. exists n'. split; [by right|done].
  - intros [= <-]. exists n. split; [left|done].
Qed.

Lemma as_body_step
    (s s' : list (F * string * list string * F) * gmap string F * gset string) :
  as_ok graph start goal s → as_body graph cities goal s = inl s' →
  as_ok graph start goal s' ∧ as_size graph s' < as_size graph s.
Proof.
  destruct s as [[open_set g_score] visited]. intros [Hq Hg]. simpl in *.
  destruct open_set as [|e0 os0]; [done|].
  destruct (heappop (e0 :: os0)) as [[[[[f current] path] cost] os]|] eqn:Hpop; [|done].
  apply heappop_perm in Hpop. rewrite Hpop in Hq.
  apply Forall_cons in Hq as [He Hq].
  apply Permutation_length in Hpop. unfold as_size. simpl in *.
  case_decide as Hcg; [done|]. case_decide as Hcv.
  - intros [= <-]. split; [by split|]. simpl. lia.
  - destruct (for_each _ _ _) as [[os' g_score']|e] eqn:Hfor; [|done].
    intros [= <-]. apply for_each_as_relax_Ok in Hfor as [Hlen HQ]. simpl in *. split.
    + split; simpl; [|set_solver]. apply HQ.
      * eapply Forall_impl; [done|]. intros e. apply entry_ok_mono. set_solver.
      * intros f' c n Hn. by apply (entry_ok_extend graph start visited current n path).
    + pose proof (graph_weight_visit graph visited current Hcv). lia.
Qed.

Lemma as_ok_init :
  as_ok graph start goal ([(fzero, start, [start], fzero)], {[start := fzero]}, ∅).
Proof.
  split; simpl; [|set_solver].
  apply Forall_singleton, entry_ok_start.
Qed.

Lemma a_star_terminates (fuel : nat) :
  search_bound graph ≤ fuel → is_Some (a_star fuel graph cities start goal).
Proof.
  intros Hfuel. unfold a_star.
  apply (while_terminates _ (as_ok graph start goal) (as_size graph)).
  - apply as_body_step.
  - apply as_ok_init.
  - unfold as_size, search_bound in *. simpl. lia.
Qed.

Lemma a_star_exit (fuel : nat) (o : Err (option Path)) :
  a_star fuel graph cities start goal = Some o →
  ∃ s, as_ok graph start goal s ∧ as_body graph cities goal s = inr o.
Proof.
  unfold a_star. intros Hrun.
  apply (while_invariant _ (as_ok graph start goal)) in Hrun; [done| |apply as_ok_init].
  intros s s' Hs Hb. by apply as_body_step in Hb as [? _].
Qed.

Lemma a_star_path (fuel : nat) (p : Path) :
  a_star fuel graph cities start goal = Some (Ok (Some p)) →
  valid_path graph start goal p ∧ NoDup p.
Proof.
  intros ([[open_set g_score] visited] & [Hq Hg] & Hb)%a_star_exit.
  simpl in *. destruct open_set as [|e0 os0]; [done|].
  destruct (heappop (e0 :: os0)) as [[[[[f current] path] cost] os]|] eqn:Hpop; [|done].
  apply heappop_perm in Hpop. rewrite Hpop in Hq.
  apply Forall_cons in Hq as [He _].
  case_decide as Hcg.
  - simplify_eq. by eapply entry_ok_goal.
  - case_decide; [done|]. by destruct (for_each _ _ _) as [[??]|?].
Qed.

Lemma a_star_Ok (fuel : nat) (o : Err (option Path)) :
  (∀ n, reachable graph start n → is_Ok (heuristic cities goal n)) →
  a_star fuel graph cities start goal = Some o → is_Ok o.
Proof.
  intros Hcoord ([[open_set g_score] visited] & [Hq Hg] & Hb)%a_star_exit.
  simpl in *. destruct open_set as [|e0 os0]; [by simplify_eq; eexists|].
  destruct (heappop_nonempty (e0 :: os0)) as [[[[[f current] path] cost] os] Hpop]; [done|].
  rewrite Hpop in Hb.
  apply heappop_perm in Hpop. rewrite Hpop in Hq.
  apply Forall_cons in Hq as [He _].
  case_decide as Hcg; [by simplify_eq; eexists|]. case_decide; [done|].
  destruct (for_each _ _ _) as [[??]|e] eqn:Hfor; [done|].
  apply for_each_as_relax_Raise in Hfor as (n & Hn & Hraise).
  apply entry_ok_reachable in He as [l Hw]. simpl in Hw.
  destruct (Hcoord n) as [h' Hh']; [|congruence].
  exists (l ++ [n]). by eapply walk_snoc.
Qed.
End AStar.

(** ** Breadth-first search finds a shortest path *)

Lemma walk_snoc_inv (graph : Graph) (a c : string) (l : list string) :
  walk graph a l c →
  (l = [] ∧ a = c) ∨
  ∃ l' b, l = l' ++ [c] ∧ walk graph a l' b ∧ c ∈ neighbors graph b.
Proof.
  induction 1 as [a|a b c l Hab Hw IH]; [by left|]. right.
  destruct IH as [[-> ->]|(l' & b' & -> & Hw' & Hc)].
  - exists [], a. split_and!; [done|apply walk_nil|done].
  - exists (b :: l'), b'. split_and!; [done|by apply walk_cons|done].
Qed.

Section Levels.
Context (graph : Graph) (start goal : string).

Lemma bfs_level_init : bfs_level graph start 0 [(start, [start])] [] ∅.
Proof.
  split_and!.
  - by apply Forall_singleton.
  - apply Forall_nil_2.
  - intros w l _ ?. lia.
  - intros w l Hw Hl. right. destruct l; [|done]. inversion Hw; subst.
    eexists. left.
  - intros v w Hv. set_solver.
Qed.

Lemma bfs_level_pop (ℓ : nat) (c : string) (p : Path) (q1 q2 : list (string * Path))
    (visited : gset string) :
  bfs_level graph start ℓ ((c, p) :: q1) q2 visited → c ∈ visited → bfs_level graph start ℓ q1 q2 visited.
Proof.
  intros (H1 & H2 & Hlt & Heq & Hnb) Hc. apply Forall_cons in H1 as [_ H1].
  split_and!; [done..| |].
  - intros w l Hw Hl. destruct (Heq w l Hw Hl) as [?|[p' Hin]]; [by left|].
    apply elem_of_cons in Hin as [[= -> ->]|Hin]; [by left|]. right. by exists p'.
  - intros v w Hv Hw. destruct (Hnb v w Hv Hw) as [?|[p' Hin]]; [by left|].
    simpl in Hin. apply elem_of_cons in Hin as [[= -> ->]|Hin]; [by left|].
    right. by exists p'.
Qed.

Lemma bfs_level_expand (ℓ : nat) (c : string) (p : Path) (q1 q2 : list (string * Path))
    (visited : gset string) :
  bfs_level graph start ℓ ((c, p) :: q1) q2 visited →
  bfs_level graph start ℓ q1 (q2 ++ ((λ neighbor, (neighbor, p ++ [neighbor])) <$> neighbors graph c))
    ({[c]} ∪ visited).
Proof.
  intros (H1 & H2 & Hlt & Heq & Hnb). apply Forall_cons in H1 as [Hp H1].
  simpl in Hp. split_and!; [done| | | |].
  - apply Forall_app. split; [done|]. apply Forall_fmap, Forall_forall.
    intros n _. simpl. rewrite length_app. simpl. lia.
  - intros w l Hw Hl. apply elem_of_union_r. by eapply Hlt.
  - intros w l Hw Hl. destruct (Heq w l Hw Hl) as [?|[p' Hin]]; [left; set_solver|].
    apply elem_of_cons in Hin as [[= -> ->]|Hin]; [left; set_solver|].
    right. by exists p'.
  - intros v w [->%elem_of_singleton|Hv]%elem_of_union Hw.
    + right. exists (p ++ [w]). rewrite !elem_of_app. right. right.
      apply list_elem_of_fmap. by exists w.
    + destruct (Hnb v w Hv Hw) as [?|[p' Hin]]; [left; set_solver|].
      simpl in Hin. apply elem_of_cons in Hin as [[= -> ->]|Hin]; [left; set_solver|].
      right. exists p'. rewrite app_assoc. apply elem_of_app. by left.
Qed.

(** When no path of [ℓ] edges is left in the queue, the next level
    starts. *)
Lemma bfs_level_shift (ℓ : nat) (q2 : list (string * Path)) (visited : gset string) :
  bfs_level graph start ℓ [] q2 visited → bfs_level graph start (S ℓ) q2 [] visited.
Proof.
  intros (_ & H2 & Hlt & Heq & Hnb).
  assert (∀ w l, walk graph start l w → length l < S ℓ → w ∈ visited) as Hlt'.
  { intros w l Hw Hl. destruct (decide (length l = ℓ)) as [Hl'|Hl'].
    - destruct (Heq w l Hw Hl') as [?|[p' Hin]]; [done|]. by apply elem_of_nil in Hin.
    - apply (Hlt w l Hw). lia. }
  split_and!; [done|apply Forall_nil_2|done| |].
  - intros w l Hw Hl. apply walk_snoc_inv in Hw as [[-> _]|(l' & v & -> & Hw' & Hwv)]; [done|].
    rewrite length_app in Hl. simpl in Hl.
    destruct (Hnb v w) as [?|[p' Hin]]; [apply (Hlt' v l' Hw'); lia|done|by left|].
    right. by exists p'.
  - intros v w Hv Hw. rewrite app_nil_r. apply (Hnb v w Hv Hw).
Qed.

(** The queue can be taken to begin with a path of [ℓ] edges. *)
Lemma bfs_level_front (ℓ : nat) (e : string * Path) (queue q1 q2 : list (string * Path))
    (visited : gset string) :
  e :: queue = q1 ++ q2 → bfs_level graph start ℓ q1 q2 visited →
  ∃ ℓ' q1' q2', queue = q1' ++ q2' ∧ bfs_level graph start ℓ' (e :: q1') q2' visited.
Proof.
  intros Hq Hlvl. destruct q1 as [|e1 q1].
  - simpl in Hq. subst q2. apply bfs_level_shift in Hlvl.
    exists (S ℓ), queue, []. by rewrite app_nil_r.
  - simpl in Hq. simplify_eq. by exists ℓ, q1, q2.
Qed.

Lemma bfs_ok_init : bfs_ok graph start goal ([(start, [start])], ∅).
Proof.
  split; [apply frontier_ok_init|].
  exists 0, [(start, [start])], []. split; [done|apply bfs_level_init].
Qed.

Lemma bfs_ok_step (s s' : list (string * Path) * gset string) :
  bfs_ok graph start goal s → bfs_body graph goal s = inl s' → bfs_ok graph start goal s'.
Proof.
  intros [Hf (ℓ & q1 & q2 & Hq & Hlvl)] Hb. split.
  { by apply (bfs_body_step graph start goal s s') in Hb as [? _]. }
  destruct s as [queue visited]. simpl in *.
  destruct queue as [|[current path] queue]; [done|].
  destruct (bfs_level_front _ _ _ _ _ _ Hq Hlvl) as (ℓ' & q1' & q2' & -> & Hlvl').
  case_decide as Hcg; [done|]. case_decide as Hcv; simplify_eq; simpl.
  - exists ℓ', q1', q2'. split; [done|]. by eapply bfs_level_pop.
  - eexists ℓ', q1', _. split; [|by apply bfs_level_expand].
    by rewrite app_assoc.
Qed.

(** With the queue empty, every city that can be reached is visited. *)
Lemma bfs_level_empty (ℓ : nat) (visited : gset string) (w : string) (l : list string) :
  bfs_level graph start ℓ [] [] visited → walk graph start l w → w ∈ visited.
Proof.
  intros Hlvl Hw.
  assert (∀ k, bfs_level graph start (k + ℓ) [] [] visited) as Hall.
  { induction k as [|k IH]; [done|]. simpl. by apply bfs_level_shift. }
  destruct (Hall (S (length l))) as (_ & _ & Hlt & _).
  apply (Hlt w l Hw). lia.
Qed.

(** What [bfs] returns when the goal can be reached. *)
Lemma bfs_shortest (fuel : nat) (r : option Path) :
  reachable graph start goal →
  bfs fuel graph start goal = Some r →
  ∃ p, r = Some p ∧ ∀ l, walk graph start l goal → edges p ≤ length l.
Proof.
  intros [l0 Hreach] Hrun. unfold bfs in Hrun.
  apply (while_invariant _ (bfs_ok graph start goal)) in Hrun
    as ([queue visited] & [[Hq Hg] (ℓ & q1 & q2 & Hsplit & Hlvl)] & Hb);
    [|apply bfs_ok_step|apply bfs_ok_init].
  simpl in *. destruct queue as [|[current path] queue].
  - symmetry in Hsplit. apply app_eq_nil in Hsplit as [-> ->].
    destruct Hg. by eapply bfs_level_empty.
  - destruct (bfs_level_front _ _ _ _ _ _ Hsplit Hlvl) as (ℓ' & q1' & q2' & -> & Hlvl').
    case_decide as Hcg; [|by case_decide]. simplify_eq.
    exists path. split; [done|]. intros l Hl.
    destruct Hlvl' as (H1 & _ & Hlt & _). apply Forall_cons in H1 as [Hp _].
    simpl in Hp. unfold edges. rewrite Hp.
    destruct (decide (length l < ℓ')) as [Hlt'|]; [|lia].
    destruct Hg. by eapply Hlt.
Qed.
End Levels.

(** ** Missing coordinates *)

Section MissingCoordinates.
Context `{Float} `{!Heapq (F * string * list string)} `{!Heapq (F * string * list string * F)}.
Context (graph : Graph) (cities : gmap string (F * F)) (goal : string).

(** The neighbor loop stops at the first evaluation that raises. *)
Lemma for_each_bf_push_stops (path : Path) (l1 l2 : list string) (n : string) (e : exn)
    (pq : list (F * string * list string)) :
  Forall (λ x, is_Ok (heuristic cities goal x)) l1 →
  heuristic cities goal n = Raise e →
  for_each (bf_push cities goal path) pq (l1 ++ n :: l2) = Raise e.
Proof.
  intros Hl1 Hn. revert pq. induction Hl1 as [|x l1 [h Hx] _ IH]; intros pq; simpl.
  - unfold bf_push. by rewrite Hn.
  - unfold bf_push at 1. rewrite Hx. simpl. apply IH.
Qed.

Lemma for_each_as_relax_stops (path : Path) (cost : F) (l1 l2 : list string) (n : string)
    (e : exn) (st : list (F * string * list string * F) * gmap string F) :
  Forall (λ x, is_Ok (heuristic cities goal x)) l1 →
  heuristic cities goal n = Raise e →
  for_each (as_relax cities goal path cost) st (l1 ++ n :: l2) = Raise e.
Proof.
  intros Hl1 Hn. revert st.
  induction Hl1 as [|x l1 [h Hx] _ IH]; intros [open_set g_score]; simpl.
  - by rewrite Hn.
  - rewrite Hx. simpl.
    destruct (match g_score !! x with Some g => flt (fadd cost h) g | None => true end);
      apply IH.
Qed.

Lemma bf_evaluates_raises (st : list (F * string * list string) * gset string)
    (n : string) (e : exn) :
  bf_evaluates graph cities goal st n →
  heuristic cities goal n = Raise e →
  bf_body graph cities goal st = inr (Raise e).
Proof.
  destruct st as [pq visited].
  intros (h & current & path & pq' & l1 & l2 & Hne & Hpop & Hcg & Hcv & Hns & Hl1) Hn.
  simpl in *. destruct pq as [|e0 pq0]; [done|]. rewrite Hpop.
  rewrite decide_False by done. rewrite decide_False by done.
  by rewrite Hns, (for_each_bf_push_stops path l1 l2 n e).
Qed.

Lemma as_evaluates_raises
    (st : list (F * string * list string * F) * gmap string F * gset string)
    (n : string) (e : exn) :
  as_evaluates graph cities goal st n →
  heuristic cities goal n = Raise e →
  as_body graph cities goal st = inr (Raise e).
Proof.
  destruct st as [[open_set g_score] visited].
  intros (f & current & path & cost & os' & l1 & l2 & Hne & Hpop & Hcg & Hcv & Hns & Hl1) Hn.
  simpl in *. destruct open_set as [|e0 os0]; [done|]. rewrite Hpop.
  rewrite decide_False by done. rewrite decide_False by done.
  by rewrite Hns, (for_each_as_relax_stops path cost l1 l2 n e).
Qed.
End MissingCoordinates.

(** ** Endpoints outside the graph *)

Lemma absent_endpoint_unreachable (graph : Graph) (start goal : string) :
  symmetric graph → start ≠ goal →
  graph !! start = None ∨ graph !! goal = None →
  ¬ reachable graph start goal.
Proof.
  intros Hsym Hne Habs [l Hw].
  assert (∀ a b, graph !! a = None → b ∉ neighbors graph a) as Hnone.
  { intros a b Ha. unfold neighbors. rewrite Ha. simpl. apply not_elem_of_nil. }
  destruct Habs as [Hs|Hg].
  - inversion Hw; subst; [done|]. by eapply Hnone.
  - apply walk_snoc_inv in Hw as [[_ ?]|(l' & b & _ & _ & Hb)]; [done|].
    apply Hsym in Hb. by eapply Hnone.
Qed.

(** ** What a heuristic search can raise *)

Section Raised.
Context `{Float} `{!Heapq (F * string * list string)} `{!Heapq (F * string * list string * F)}.
Context (graph : Graph) (cities : gmap string (F * F)) (goal : string).








End Raised.

(** ** The calls of [dls] *)









(** * The claims *)

Section Claims.
Context `{Float} `{!Heapq (F * string * list string)} `{!Heapq (F * string * list string * F)}.

(** C1: when some path leads from [start] to [goal], [bfs] returns a
    path from [start] to [goal] that has no more edges than any other
    such path.  The loop is given at least [search_bound graph] turns,
    within which it always ends.  The graph need not be undirected for
    this. *)
Theorem bfs_shortest_path (graph : Graph) (start goal : string) (fuel : nat) :
  (∃ q, valid_path graph start goal q) →
  search_bound graph ≤ fuel →
  ∃ p, bfs fuel graph start goal = Some (Some p) ∧
       valid_path graph start goal p ∧
       ∀ q, valid_path graph start goal q → edges p ≤ edges q.
Proof.
  intros [q0 Hq0] Hfuel.
  destruct (bfs_terminates graph start goal fuel Hfuel) as [r Hr].
  apply valid_path_walk in Hq0 as (l0 & _ & Hw0).
  destruct (bfs_shortest graph start goal fuel r) as (p & -> & Hmin); [by exists l0|done|].
  exists p. split_and!; [done|by eapply bfs_path|].
  intros q (l & -> & Hw)%valid_path_walk. unfold edges at 2. simpl.
  rewrite Nat.sub_0_r. by apply Hmin.
Qed.

(** C2: called with the same city [n] as start and goal, every search
    returns the path [[n]], whether or not [n] is in the graph; [iddfs]
    does with its default depth, and [best_first_search] when its first
    step, the heuristic at [n], evaluates, for which [n] must have
    coordinates. *)
Theorem search_start_is_goal (graph : Graph) (cities : gmap string (F * F)) (n : string)
    (fuel : nat) :
  bfs (S fuel) graph n n = Some (Some [n]) ∧
  dfs (S fuel) graph n n = Some (Some [n]) ∧
  iddfs graph n n default_max_depth = Some [n] ∧
  (is_Ok (heuristic cities n n) →
   best_first_search (S fuel) graph cities n n = Some (Ok (Some [n]))) ∧
  a_star (S fuel) graph cities n n = Some (Ok (Some [n])).
Proof.
  split_and!.
  - unfold bfs. simpl. by rewrite decide_True.
  - unfold dfs. simpl. by rewrite decide_True.
  - unfold iddfs, default_max_depth, range. simpl. by rewrite decide_True.
  - intros [h Hh]. unfold best_first_search. rewrite Hh. simpl.
    destruct (heappop_nonempty [(h, n, [n])]) as [[[[h' c] p] pq] Hpop]; [done|].
    rewrite Hpop. apply heappop_perm, Permutation_singleton_l in Hpop.
    simplify_eq. by rewrite decide_True.
  - unfold a_star. simpl.
    destruct (heappop_nonempty [(fzero, n, [n], fzero)]) as [[[[[f c] p] g] os] Hpop];
      [done|].
    rewrite Hpop. apply heappop_perm, Permutation_singleton_l in Hpop.
    simplify_eq. by rewrite decide_True.
Qed.

(** C3: a path returned by any of the five searches begins with
    [start], ends with [goal], steps from each city to one of its
    neighbors in the graph, and contains no city twice. *)
Theorem returned_path_valid (graph : Graph) (cities : gmap string (F * F))
    (start goal : string) (max_depth : Z) (fuel : nat) (p : Path) :
  bfs fuel graph start goal = Some (Some p) ∨
  dfs fuel graph start goal = Some (Some p) ∨
  iddfs graph start goal max_depth = Some p ∨
  best_first_search fuel graph cities start goal = Some (Ok (Some p)) ∨
  a_star fuel graph cities start goal = Some (Ok (Some p)) →
  valid_path graph start goal p ∧ NoDup p.
Proof.
  intros [Hr|[Hr|[Hr|[Hr|Hr]]]].
  - by eapply bfs_path.
  - by eapply dfs_path.
  - apply iddfs_path in Hr as (? & ? & _). done.
  - by eapply best_first_search_path.
  - by eapply a_star_path.
Qed.

(** C4, as the program has it: in a graph with mutual neighbor lists,
    when [start] and [goal] differ and one of them has no adjacency
    entry, every search returns [None] and none raises; for the two
    heuristic searches this needs the heuristic to evaluate on every
    city that can be reached from [start], which takes coordinates for
    each of them and for the goal. *)
Theorem absent_endpoint_not_found (graph : Graph) (cities : gmap string (F * F))
    (start goal : string) (max_depth : Z) (fuel : nat) :
  symmetric graph →
  start ≠ goal →
  graph !! start = None ∨ graph !! goal = None →
  search_bound graph ≤ fuel →
  bfs fuel graph start goal = Some None ∧
  dfs fuel graph start goal = Some None ∧
  iddfs graph start goal max_depth = None ∧
  ((∀ n, reachable graph start n → is_Ok (heuristic cities goal n)) →
   best_first_search fuel graph cities start goal = Some (Ok None) ∧
   a_star fuel graph cities start goal = Some (Ok None)).
Proof.
  intros Hsym Hne Habs Hfuel.
  pose proof (absent_endpoint_unreachable graph start goal Hsym Hne Habs) as Hunreach.
  assert (∀ p, ¬ valid_path graph start goal p) as Hnopath.
  { intros p (l & _ & Hw)%valid_path_walk. apply Hunreach. by exists l. }
  split_and!.
  - destruct (bfs_terminates graph start goal fuel Hfuel) as [[p|] Hr]; [|done].
    apply bfs_path in Hr as [Hp _]. by apply Hnopath in Hp.
  - destruct (dfs_terminates graph start goal fuel Hfuel) as [[p|] Hr]; [|done].
    apply dfs_path in Hr as [Hp _]. by apply Hnopath in Hp.
  - destruct (iddfs graph start goal max_depth) as [p|] eqn:Hr; [|done].
    apply iddfs_path in Hr as (Hp & _). by apply Hnopath in Hp.
  - intros Hcoord. split.
    + destruct (best_first_search_terminates graph cities start goal fuel Hfuel) as [o Hr].
      destruct (best_first_search_Ok graph cities start goal fuel o Hcoord Hr) as [[p|] ->];
        [|done].
      apply best_first_search_path in Hr as [Hp _]. by apply Hnopath in Hp.
    + destruct (a_star_terminates graph cities start goal fuel Hfuel) as [o Hr].
      destruct (a_star_Ok graph cities start goal fuel o Hcoord Hr) as [[p|] ->]; [|done].
      apply a_star_path in Hr as [Hp _]. by apply Hnopath in Hp.
Qed.

(** C6: a run of [best_first_search] or of [a_star] that evaluates the
    heuristic on a city [n] without coordinates ends there with the
    exception [KeyError n] passed to the caller: it returns no path and
    takes no distance for [n].  [best_first_search] evaluates the
    heuristic on [start] before its loop and, like [a_star], on the
    neighbors of the city a turn of the loop expands. *)
Theorem missing_coordinate_raises (graph : Graph) (cities : gmap string (F * F))
    (start goal n : string) :
  cities !! n = None →
  ((n = start ∨
    ∃ h k st, heuristic cities goal start = Ok h ∧
              turns (bf_body graph cities goal) k ([(h, start, [start])], ∅) = Some st ∧
              bf_evaluates graph cities goal st n) →
   ∃ k, ∀ fuel, k ≤ fuel →
     best_first_search fuel graph cities start goal = Some (Raise (KeyError n))) ∧
  ((∃ k st, turns (as_body graph cities goal) k
              ([(fzero, start, [start], fzero)], {[start := fzero]}, ∅) = Some st ∧
            as_evaluates graph cities goal st n) →
   ∃ k, ∀ fuel, k ≤ fuel →
     a_star fuel graph cities start goal = Some (Raise (KeyError n))).
Proof.
  intros Hn. pose proof (heuristic_KeyError cities goal n Hn) as Hraise. split.
  - intros [->|(h & k & st & Hh & Hturns & Hev)].
    + exists 0. intros fuel _. unfold best_first_search. by rewrite Hraise.
    + exists (k + 1). intros fuel Hfuel. unfold best_first_search. rewrite Hh.
      replace fuel with (k + S (fuel - k - 1)) by lia.
      rewrite (while_turns _ _ _ _ _ Hturns). simpl.
      by rewrite (bf_evaluates_raises graph cities goal st n _ Hev Hraise).
  - intros (k & st & Hturns & Hev).
    exists (k + 1). intros fuel Hfuel. unfold a_star.
    replace fuel with (k + S (fuel - k - 1)) by lia.
    rewrite (while_turns _ _ _ _ _ Hturns). simpl.
    by rewrite (as_evaluates_raises graph cities goal st n _ Hev Hraise).
Qed.

End Claims.

(** C10: [iddfs] runs [dls] with the depths [0] to [max_depth - 1] only;
    a path found by [dls] with depth [d] adds at most [d - 1] edges to
    the path it was given; so when [start] and [goal] differ and every
    path between them has more than [max_depth - 2] edges, [iddfs]
    returns [None]. *)
Theorem iddfs_effective_depth (graph : Graph) (start goal : string) (max_depth : Z) :
  (∀ p, iddfs graph start goal max_depth = Some p →
        ∃ depth : nat, (Z.of_nat depth < max_depth)%Z ∧
                       dls graph goal depth start [start] = Some p) ∧
  (∀ depth node path p, dls graph goal depth node path = Some p →
        ∃ l, p = path ++ l ∧ walk graph node l goal ∧ 0 < depth ∧ length l ≤ depth - 1) ∧
  (start ≠ goal →
   (∀ p, valid_path graph start goal p → (max_depth - 2 < Z.of_nat (edges p))%Z) →
   iddfs graph start goal max_depth = None).
Proof.
  split_and!.
  - apply iddfs_Some.
  - intros depth node path p (l & ? & ? & ? & _)%dls_Some. exists l.
    split_and!; [done..|lia|lia].
  - intros _ Hlong. destruct (iddfs graph start goal max_depth) as [p|] eqn:Hi; [|done].
    apply iddfs_path in Hi as (Hp & _ & Hle). apply Hlong in Hp. lia.
Qed.

(** * The claims on the fixtures *)

(** ** Checking a graph edge by edge *)

Lemma neighbors_map_Forall (graph : Graph) (P : string → string → Prop) :
  map_Forall (λ a ns, Forall (P a) ns) graph →
  ∀ a b, b ∈ neighbors graph a → P a b.
Proof.
  intros Hall a b. unfold neighbors.
  destruct (graph !! a) as [ns|] eqn:Ha; simpl; [|by intros ?%elem_of_nil].
  specialize (Hall a ns Ha). simpl in Hall.
  rewrite Forall_forall in Hall. apply Hall.
Qed.

Lemma reachable_cases (graph : Graph) (start n : string) :
  reachable graph start n → n = start ∨ ∃ a, n ∈ neighbors graph a.
Proof.
  intros [l [[_ ->]|(l' & b & _ & _ & Hb)]%walk_snoc_inv]; [by left|].
  right. by exists b.
Qed.

(** A walk raises the rank by at most one per edge when every edge
    does. *)
Lemma walk_rank (graph : Graph) (ranks : gmap string nat) (a c : string) (l : list string) :
  map_Forall (λ a ns, Forall (λ b, rank_of ranks b ≤ S (rank_of ranks a)) ns) graph →
  walk graph a l c → rank_of ranks c ≤ rank_of ranks a + length l.
Proof.
  intros Hall. induction 1 as [a|a b c l Hab Hw IH]; simpl; [lia|].
  apply (neighbors_map_Forall graph _ Hall) in Hab. lia.
Qed.

Lemma valid_path_rank (graph : Graph) (ranks : gmap string nat) (start goal : string)
    (p : Path) :
  map_Forall (λ a ns, Forall (λ b, rank_of ranks b ≤ S (rank_of ranks a)) ns) graph →
  valid_path graph start goal p → rank_of ranks goal ≤ rank_of ranks start + edges p.
Proof.
  intros Hall (l & -> & Hw)%valid_path_walk. unfold edges. simpl.
  rewrite Nat.sub_0_r. by eapply walk_rank.
Qed.

(** The heuristic evaluates on all that can be reached when it does on
    the start and on every neighbor listed in the graph. *)
Lemma heuristic_Ok_reachable `{Float} (graph : Graph) (cities : gmap string (F * F))
    (start goal : string) :
  is_Ok (heuristic cities goal start) →
  map_Forall (λ _ ns, Forall (λ b, is_Ok (heuristic cities goal b)) ns) graph →
  ∀ n, reachable graph start n → is_Ok (heuristic cities goal n).
Proof.
  intros Hstart Hall n [->|[a Ha]]%reachable_cases; [done|].
  by apply (neighbors_map_Forall graph (λ _ b, is_Ok (heuristic cities goal b)) Hall a).
Qed.

(** ** The square *)

Lemma square_loaded : square = load_adjacencies square_rows.
Proof. vm_compute. reflexivity. Qed.

Lemma square_symmetric : symmetric square.
Proof. rewrite square_loaded. apply load_adjacencies_mutual. Qed.

Lemma square_ABC : valid_path square "A" "C" ["A"; "B"; "C"].
Proof.
  apply walk_valid_path.
  apply walk_cons; [by_evaluation|]. apply walk_cons; [by_evaluation|]. apply walk_nil.
Qed.

Lemma square_ranked :
  map_Forall (λ a ns, Forall (λ b, rank_of square_ranks b ≤ S (rank_of square_ranks a)) ns)
    square.
Proof. by_evaluation. Qed.

Lemma square_A_C_far (p : Path) : valid_path square "A" "C" p → (1 < Z.of_nat (edges p))%Z.
Proof.
  intros Hp. apply (valid_path_rank square square_ranks) in Hp; [|apply square_ranked].
  change (rank_of square_ranks "C") with 2 in Hp.
  change (rank_of square_ranks "A") with 0 in Hp. lia.
Qed.

(** On integer coordinates the heuristic evaluates wherever the
    coordinates are present. *)
Lemma Z_heuristic_Ok (cities : gmap string (Z * Z)) (goal n : string) :
  is_Some (cities !! n) → is_Some (cities !! goal) →
  is_Ok (heuristic (H := Z_Float) cities goal n).
Proof.
  intros [[lat1 lon1] Hn] [[lat2 lon2] Hg]. unfold heuristic, coordinates.
  simpl. rewrite Hn. simpl. rewrite Hg. simpl. by eexists.
Qed.

Lemma Z_heuristic_Ok_reachable (graph : Graph) (cities : gmap string (Z * Z))
    (start goal : string) :
  is_Some (cities !! start) → is_Some (cities !! goal) →
  map_Forall (λ _ ns, Forall (λ b, is_Some (cities !! b)) ns) graph →
  ∀ n, reachable graph start n → is_Ok (heuristic (H := Z_Float) cities goal n).
Proof.
  intros Hstart Hgoal Hall. apply heuristic_Ok_reachable; [by apply Z_heuristic_Ok|].
  intros a ns Ha. specialize (Hall a ns Ha). simpl in *.
  eapply Forall_impl; [done|]. intros b Hb. by apply Z_heuristic_Ok.
Qed.

Lemma square_cities_listed :
  map_Forall (λ _ ns, Forall (λ b, is_Some (square_cities !! b)) ns) square.
Proof. by_evaluation. Qed.

Lemma square_with_Z_listed :
  map_Forall (λ _ ns, Forall (λ b, is_Some (cities_with_Z !! b)) ns) square.
Proof. by_evaluation. Qed.

Lemma bfs_shortest_path_witness :
  ∃ p, bfs 20 square "A" "C" = Some (Some p) ∧
       valid_path square "A" "C" p ∧
       ∀ q, valid_path square "A" "C" q → edges p ≤ edges q.
Proof.
  apply (bfs_shortest_path square "A" "C" 20).
  - exists ["A"; "B"; "C"]. apply square_ABC.
  - vm_compute. lia.
Defined.

(** Z is not a city of the square. *)
Lemma search_start_is_goal_witness :
  square !! "Z" = None ∧
  bfs 1 square "Z" "Z" = Some (Some ["Z"]) ∧
  dfs 1 square "Z" "Z" = Some (Some ["Z"]) ∧
  iddfs square "Z" "Z" default_max_depth = Some ["Z"] ∧
  best_first_search 1 square cities_with_Z "Z" "Z" = Some (Ok (Some ["Z"])) ∧
  a_star 1 square cities_with_Z "Z" "Z" = Some (Ok (Some ["Z"])).
Proof.
  destruct (search_start_is_goal (H := Z_Float) square cities_with_Z "Z" 0)
    as (Hbfs & Hdfs & Hiddfs & Hbf & Has).
  split_and!; [reflexivity|done..| |done].
  apply Hbf. apply Z_heuristic_Ok; by_evaluation.
Defined.

Lemma returned_path_valid_witness :
  valid_path square "A" "C" ["A"; "D"; "C"] ∧ NoDup ["A"; "D"; "C"].
Proof.
  apply (returned_path_valid (H := Z_Float) square square_cities "A" "C" 20 20).
  right. right. right. right. vm_compute. reflexivity.
Defined.

Lemma absent_endpoint_not_found_witness :
  square !! "Z" = None ∧
  bfs 20 square "A" "Z" = Some None ∧
  dfs 20 square "A" "Z" = Some None ∧
  iddfs square "A" "Z" default_max_depth = None ∧
  best_first_search 20 square cities_with_Z "A" "Z" = Some (Ok None) ∧
  a_star 20 square cities_with_Z "A" "Z" = Some (Ok None).
Proof.
  destruct (absent_endpoint_not_found (H := Z_Float) square cities_with_Z "A" "Z"
              default_max_depth 20) as (Hbfs & Hdfs & Hiddfs & Hheur).
  - apply square_symmetric.
  - done.
  - right. reflexivity.
  - vm_compute. lia.
  - destruct Hheur as [Hbf Has].
    + apply Z_heuristic_Ok_reachable; [by_evaluation..|apply square_with_Z_listed].
    + split_and!; [reflexivity|done..].
Defined.

(** C4 refuted as stated.  With start and goal the same city outside the
    graph, [bfs] returns the one-city path, not [None]; and with only the
    two endpoints given coordinates, [best_first_search] towards a goal
    outside the graph raises at the first neighbor. *)
Lemma absent_endpoint_counterexample :
  ((∅ : gmap string (list string)) !! "A" = None ∧
   bfs 2 ∅ "A" "A" = Some (Some ["A"]) ∧
   bfs 2 ∅ "A" "A" ≠ Some None) ∧
  (pair_graph !! "Z" = None ∧
   is_Some (cities_A_Z !! "A") ∧ is_Some (cities_A_Z !! "Z") ∧
   best_first_search 5 pair_graph cities_A_Z "A" "Z" = Some (Raise (KeyError "B")) ∧
   best_first_search 5 pair_graph cities_A_Z "A" "Z" ≠ Some (Ok None)).
Proof.
  split; split_and!; first [vm_compute; reflexivity|by_evaluation|by vm_compute].
Qed.

Lemma iddfs_depth_bound_witness :
  valid_path square "A" "C" ["A"; "B"; "C"] ∧ iddfs square "A" "C" 1 = None.
Proof.
  split; [apply square_ABC|].
  apply (iddfs_depth_bound square "A" "C" 1); [done|apply square_A_C_far].
Defined.

Lemma missing_coordinate_raises_witness :
  cities_without_D !! "D" = None ∧
  (∃ k, ∀ fuel, k ≤ fuel →
     best_first_search fuel square cities_without_D "A" "C" = Some (Raise (KeyError "D"))) ∧
  (∃ k, ∀ fuel, k ≤ fuel →
     a_star fuel square cities_without_D "A" "C" = Some (Raise (KeyError "D"))).
Proof.
  destruct (missing_coordinate_raises (H := Z_Float) square cities_without_D "A" "C" "D")
    as [Hbf Has]; [reflexivity|].
  split_and!; [reflexivity| |].
  - apply Hbf. right.
    exists 3%Z, 0, ([(3%Z, "A", ["A"])], ∅). split_and!; [reflexivity..|].
    exists 3%Z, "A", ["A"], [], ["B"], []. split_and!;
      [done|reflexivity|done|set_solver|reflexivity|].
    apply Forall_singleton. apply Z_heuristic_Ok; by_evaluation.
  - apply Has.
    exists 0, ([(0%Z, "A", ["A"], 0%Z)], {["A" := 0%Z]}, ∅). split; [reflexivity|].
    exists 0%Z, "A", ["A"], 0%Z, [], ["B"], []. split_and!;
      [done|reflexivity|done|set_solver|reflexivity|].
    apply Forall_singleton. apply Z_heuristic_Ok; by_evaluation.
Defined.

Lemma measure_time_returns_result_witness :
  (measure_time timed_iddfs (square, "A", "C") ticking).1 = Ok (VList ["A"; "B"; "C"]) ∧
  trace (measure_time timed_iddfs (square, "A", "C") ticking).2 =
    [EvPerfCounter 0%Z; EvCall (Ok (VList ["A"; "B"; "C"])); EvPerfCounter 5%Z;
     EvPrint "Time taken: 5.000000 seconds"] ∧
  invocations (trace (measure_time timed_iddfs (square, "A", "C") ticking).2) =
    [Ok (VList ["A"; "B"; "C"])].
Proof.
  destruct (measure_time_returns_result (H := Z_Float) timed_iddfs (square, "A", "C") ticking)
    as (Hresult & _ & Htrace & Hcalls).
  rewrite Hresult, Hcalls, Htrace. split_and!; vm_compute; reflexivity.
Defined.





(** ** The line *)

Lemma line_walk : valid_path line "a" "t" line_names.
Proof.
  apply walk_valid_path.
  repeat (apply walk_cons; [by_evaluation|]). apply walk_nil.
Qed.

Lemma line_ranked :
  map_Forall (λ a ns, Forall (λ b, rank_of line_ranks b ≤ S (rank_of line_ranks a)) ns)
    line.
Proof. by_evaluation. Qed.

Lemma line_a_t_far (p : Path) :
  valid_path line "a" "t" p → (default_max_depth - 2 < Z.of_nat (edges p))%Z.
Proof.
  intros Hp. apply (valid_path_rank line line_ranks) in Hp; [|apply line_ranked].
  change (rank_of line_ranks "t") with 19 in Hp.
  change (rank_of line_ranks "a") with 0 in Hp. unfold default_max_depth. lia.
Qed.

(** The 19 edges of the line are within the nominal depth of 20, and
    [iddfs] does not find them. *)
Lemma iddfs_effective_depth_witness :
  valid_path line "a" "t" line_names ∧
  (Z.of_nat (edges line_names) ≤ default_max_depth)%Z ∧
  iddfs line "a" "t" default_max_depth = None.
Proof.
  split_and!; [apply line_walk|by vm_compute|].
  apply (iddfs_effective_depth line "a" "t" default_max_depth); [done|apply line_a_t_far].
Defined.

(** * Further properties *)

(** ** The adjacency list, row by row *)

Lemma load_row_malformed (graph : Graph) (row : list string) :
  length row ≠ 2 → load_row graph row = graph.
Proof. by destruct row as [|? [|? [|? ?]]]. Qed.

Lemma elem_of_neighbors_foldl_load_row (rows : list (list string)) (graph : Graph)
    (a b : string) :
  b ∈ neighbors (foldl load_row graph rows) a ↔
  b ∈ neighbors graph a ∨ [a; b] ∈ rows ∨ [b; a] ∈ rows.
Proof.
  revert graph. induction rows as [|row rows IH]; intros graph; simpl.
  { rewrite !elem_of_nil. tauto. }
  rewrite IH, !elem_of_cons.
  destruct (decide (length row = 2)) as [Hlen|Hlen].
  - destruct row as [|city1 [|city2 [|? ?]]]; try done.
    rewrite elem_of_neighbors_load_row. split.
    + intros [[?|[[-> ->]|[-> ->]]]|[?|?]]; auto.
    + intros [?|[[[= -> ->]|?]|[[= -> ->]|?]]]; auto.
  - rewrite load_row_malformed by done.
    assert ([a; b] ≠ row ∧ [b; a] ≠ row) as [??] by (split; intros <-; done).
    tauto.
Qed.

(** X1: the neighbor lists built by [load_adjacencies] hold exactly the
    edges of the two-field rows: [b] is a neighbor of [a] when, and only
    when, some row reads [a b] or [b a]. *)
Theorem load_adjacencies_edges (rows : list (list string)) (a b : string) :
  b ∈ neighbors (load_adjacencies rows) a ↔ [a; b] ∈ rows ∨ [b; a] ∈ rows.
Proof.
  unfold load_adjacencies. rewrite elem_of_neighbors_foldl_load_row.
  unfold neighbors. rewrite lookup_empty. simpl. rewrite elem_of_nil. tauto.
Qed.

Lemma setdefault_append_lookup (graph : Graph) (a b x : string) :
  setdefault_append graph a b !! x =
  if decide (x = a) then Some (neighbors graph a ++ [b]) else graph !! x.
Proof.
  unfold setdefault_append, neighbors. case_decide as Hx.
  - subst. by rewrite lookup_insert_eq.
  - by rewrite lookup_insert_ne.
Qed.

Lemma load_row_nonempty (graph : Graph) (row : list string) :
  (∀ a ns, graph !! a = Some ns → ns ≠ []) →
  ∀ a ns, load_row graph row !! a = Some ns → ns ≠ [].
Proof.
  intros Hg a ns. destruct row as [|city1 [|city2 [|? ?]]]; simpl; try apply Hg.
  rewrite !setdefault_append_lookup.
  repeat case_decide; try apply Hg; intros [= <-]; by intros [? ?]%app_eq_nil.
Qed.

Lemma load_adjacencies_nonempty (rows : list (list string)) (a : string) (ns : list string) :
  load_adjacencies rows !! a = Some ns → ns ≠ [].
Proof.
  unfold load_adjacencies.
  assert (∀ a ns, (∅ : gmap string (list string)) !! a = Some ns → ns ≠ []) as Hinit.
  { intros ? ?. by rewrite lookup_empty. }
  revert Hinit. generalize (∅ : gmap string (list string)). revert a ns.
  induction rows as [|row rows IH]; intros a ns graph Hg; simpl; [apply Hg|].
  apply IH. by apply load_row_nonempty.
Qed.

(** X2: the keys of the graph built by [load_adjacencies] are exactly
    the cities named in a two-field row, and no key has an empty
    neighbor list; a city named only in a skipped row is not a node. *)
Theorem load_adjacencies_keys (rows : list (list string)) (a : string) :
  (is_Some (load_adjacencies rows !! a) ↔ ∃ b, [a; b] ∈ rows ∨ [b; a] ∈ rows) ∧
  load_adjacencies rows !! a ≠ Some [].
Proof.
  split.
  - split.
    + intros [ns Hns]. pose proof (load_adjacencies_nonempty rows a ns Hns) as Hne.
      destruct ns as [|b ns]; [done|]. exists b. apply load_adjacencies_edges.
      unfold neighbors. rewrite Hns. left.
    + intros [b Hb]. apply load_adjacencies_edges in Hb. unfold neighbors in Hb.
      destruct (load_adjacencies rows !! a); [done|]. by apply elem_of_nil in Hb.
  - intros Hns. by apply load_adjacencies_nonempty in Hns.
Qed.

(** X3: rows that do not have two fields leave no trace: the graph is
    the one built from the two-field rows alone. *)
Theorem load_adjacencies_skips (rows : list (list string)) :
  load_adjacencies rows = load_adjacencies (filter (λ row, length row = 2) rows).
Proof.
  unfold load_adjacencies. generalize (∅ : gmap string (list string)).
  induction rows as [|row rows IH]; intros graph; [done|].
  rewrite filter_cons. simpl. case_decide as Hlen; simpl.
  - apply IH.
  - rewrite load_row_malformed by done. apply IH.
Qed.

Lemma total_degree_setdefault_append (graph : Graph) (a b : string) :
  total_degree (setdefault_append graph a b) = S (total_degree graph).
Proof.
  unfold total_degree, setdefault_append.
  assert (∀ (m : gmap string (list string)) j1 j2 (z1 z2 : list string) (y : nat),
            j1 ≠ j2 → m !! j1 = Some z1 → m !! j2 = Some z2 →
            length z1 + (length z2 + y) = length z2 + (length z1 + y)) as Hcomm
    by (intros; lia).
  destruct (graph !! a) as [ns|] eqn:Ha; simpl.
  - rewrite <-insert_delete_eq.
    rewrite map_fold_insert_L; [|by eauto|by rewrite lookup_delete_eq].
    rewrite (map_fold_delete_L _ _ a ns graph); [|by eauto|done].
    rewrite length_app. simpl. lia.
  - rewrite map_fold_insert_L; [done|by eauto|done].
Qed.

(** X4: every two-field row adds two entries to the neighbor lists, one
    at each end, so the lists together hold twice as many entries as
    there are such rows; nothing is deduplicated and a row [a a] counts
    twice for [a]. *)
Theorem load_adjacencies_degree (rows : list (list string)) :
  total_degree (load_adjacencies rows) =
  2 * length (filter (λ row, length row = 2) rows).
Proof.
  unfold load_adjacencies.
  assert (total_degree (∅ : gmap string (list string)) = 0) as Hinit
    by (unfold total_degree; by rewrite map_fold_empty).
  enough (∀ graph, total_degree (foldl load_row graph rows) =
                   total_degree graph + 2 * length (filter (λ row, length row = 2) rows))
    as Hgen by (rewrite Hgen, Hinit; lia).
  induction rows as [|row rows IH]; intros graph; simpl; [lia|].
  rewrite IH, filter_cons. case_decide as Hlen.
  - destruct row as [|city1 [|city2 [|? ?]]]; try done. simpl.
    rewrite !total_degree_setdefault_append. lia.
  - rewrite load_row_malformed by done. lia.
Qed.

(** ** The searches find a path whenever there is one *)

Lemma covered_skip (graph : Graph) (start : string) (nodes nodes' : list string)
    (visited : gset string) :
  covered graph start nodes visited →
  (∀ x, x ∈ nodes → x ∈ visited ∨ x ∈ nodes') →
  covered graph start nodes' visited.
Proof.
  intros [Hs Hnb] Hsub. split.
  - destruct Hs as [?|?]; [by left|by apply Hsub].
  - intros v w Hv Hw. destruct (Hnb v w Hv Hw) as [?|?]; [by left|by apply Hsub].
Qed.

Lemma covered_expand (graph : Graph) (start current : string) (nodes nodes' : list string)
    (visited : gset string) :
  covered graph start nodes visited →
  (∀ x, x ∈ nodes → x = current ∨ x ∈ nodes') →
  (∀ w, w ∈ neighbors graph current → w ∈ nodes') →
  covered graph start nodes' ({[current]} ∪ visited).
Proof.
  intros [Hs Hnb] Hsub Hnew.
  assert (∀ x, x ∈ visited ∨ x ∈ nodes → x ∈ {[current]} ∪ visited ∨ x ∈ nodes') as Hkeep.
  { intros x [?|[->|?]%Hsub]; [left|left|right]; set_solver. }
  split; [by apply Hkeep|].
  intros v w [->%elem_of_singleton|Hv]%elem_of_union Hw.
  - right. by apply Hnew.
  - apply Hkeep. by apply (Hnb v w).
Qed.

(** With nothing left in the frontier, all that can be reached is
    visited. *)
Lemma covered_exhausted (graph : Graph) (start n : string) (visited : gset string) :
  covered graph start [] visited → reachable graph start n → n ∈ visited.
Proof.
  intros [Hs Hnb] [l Hw]. revert n Hw.
  induction l as [|x l IH] using rev_ind; intros n Hw.
  - inversion Hw; subst. destruct Hs as [?|Hs]; [done|by apply elem_of_nil in Hs].
  - apply walk_snoc_inv in Hw as [[Hnil _]|(l' & b & Heq & Hw' & Hb)].
    { by destruct l. }
    apply app_inj_tail in Heq as [<- <-].
    destruct (Hnb b x (IH b Hw') Hb) as [?|Hx]; [done|by apply elem_of_nil in Hx].
Qed.

Lemma valid_path_reachable (graph : Graph) (start goal : string) :
  (∃ q, valid_path graph start goal q) ↔ reachable graph start goal.
Proof.
  split.
  - intros [q (l & _ & Hw)%valid_path_walk]. by exists l.
  - intros [l Hw]. exists (start :: l). by apply walk_valid_path.
Qed.

Section Complete.
Context (graph : Graph) (start goal : string).

Lemma dfs_covered_step (s s' : list (string * Path) * gset string) :
  covered graph start s.1.*1 s.2 → dfs_body graph goal s = inl s' →
  covered graph start s'.1.*1 s'.2.
Proof.
  destruct s as [stack visited]. simpl. intros Hcov.
  destruct (pop stack) as [[rest [current path]]|] eqn:Hpop; [|done].
  apply pop_Some in Hpop as ->. rewrite fmap_app in Hcov. simpl in Hcov.
  destruct (decide (current = goal)); [done|].
  destruct (decide (current ∈ visited)) as [Hcv|Hcv]; intros [= <-]; simpl.
  - eapply covered_skip; [done|].
    intros x [?| ->%list_elem_of_singleton]%elem_of_app; [by right|by left].
  - eapply covered_expand; [done| |].
    + intros x [?| ->%list_elem_of_singleton]%elem_of_app; [right|by left].
      rewrite fmap_app, elem_of_app. by left.
    + intros w Hw. rewrite fmap_app, elem_of_app. right.
      rewrite <-list_fmap_compose. simpl. by rewrite list_fmap_id.
Qed.

(** What [dfs] returns when the goal can be reached. *)
Lemma dfs_reaches (fuel : nat) (r : option Path) :
  reachable graph start goal → dfs fuel graph start goal = Some r → ∃ p, r = Some p.
Proof.
  intros Hreach Hrun. unfold dfs in Hrun.
  apply (while_invariant _
           (λ st, frontier_ok graph start goal st ∧ covered graph start st.1.*1 st.2))
    in Hrun as ([stack visited] & [[_ Hg] Hcov] & Hb).
  - simpl in *. destruct (pop stack) as [[rest [current path]]|] eqn:Hpop.
    + destruct (decide (current = goal)); [|by destruct (decide (current ∈ visited))].
      simplify_eq. by eexists.
    + apply pop_None in Hpop as ->. destruct Hg. by eapply covered_exhausted.
  - intros s s' [Hok Hcov] Hb. split.
    + by apply (dfs_body_step graph start goal s s') in Hb as [? _].
    + by eapply dfs_covered_step.
  - split; [apply frontier_ok_init|]. split; [right; simpl; left|set_solver].
Qed.

(** X5: [bfs] and [dfs] decide whether the goal can be reached: each
    returns a path from [start] to [goal] without repeated cities when
    there is a path, and [None] when there is none. *)
Theorem uninformed_search_complete (fuel : nat) :
  search_bound graph ≤ fuel →
  ((∃ q, valid_path graph start goal q) →
   (∃ p, bfs fuel graph start goal = Some (Some p) ∧
         valid_path graph start goal p ∧ NoDup p) ∧
   (∃ p, dfs fuel graph start goal = Some (Some p) ∧
         valid_path graph start goal p ∧ NoDup p)) ∧
  ((¬ ∃ q, valid_path graph start goal q) →
   bfs fuel graph start goal = Some None ∧ dfs fuel graph start goal = Some None).
Proof.
  intros Hfuel.
  destruct (bfs_terminates graph start goal fuel Hfuel) as [rb Hb].
  destruct (dfs_terminates graph start goal fuel Hfuel) as [rd Hd].
  split.
  - intros Hreach%valid_path_reachable. split.
    + destruct (bfs_shortest graph start goal fuel rb Hreach Hb) as (p & -> & _).
      exists p. split; [done|]. by eapply bfs_path.
    + destruct (dfs_reaches fuel rd Hreach Hd) as (p & ->).
      exists p. split; [done|]. by eapply dfs_path.
  - intros Hno. split.
    + destruct rb as [p|]; [|done]. destruct Hno. exists p. by eapply bfs_path.
    + destruct rd as [p|]; [|done]. destruct Hno. exists p. by eapply dfs_path.
Qed.
End Complete.

Section HeuristicComplete.
Context `{Float} `{!Heapq (F * string * list string)} `{!Heapq (F * string * list string * F)}.
Context (graph : Graph) (cities : gmap string (F * F)) (start goal : string).

(** The cities of the entries the neighbor loop of [best_first_search]
    leaves in the heap. *)
Lemma for_each_bf_push_nodes (path : Path) (ns : list string)
    (pq pq' : list (F * string * list string)) :
  for_each (bf_push cities goal path) pq ns = Ok pq' →
  (λ e, e.1.2) <$> pq' ≡ₚ ((λ e, e.1.2) <$> pq) ++ ns.
Proof.
  revert pq. induction ns as [|n ns IH]; intros pq; simpl.
  - intros [= <-]. by rewrite app_nil_r.
  - unfold bf_push at 1.
    destruct (heuristic cities goal n) as [h|e] eqn:Hh; simpl; [|done].
    intros Hrest%IH. rewrite Hrest, (heappush_perm pq _). simpl.
    by rewrite Permutation_middle.
Qed.

Lemma bf_covered_step (s s' : list (F * string * list string) * gset string) :
  covered graph start ((λ e, e.1.2) <$> s.1) s.2 →
  bf_body graph cities goal s = inl s' →
  covered graph start ((λ e, e.1.2) <$> s'.1) s'.2.
Proof.
  destruct s as [pq visited]. simpl. intros Hcov.
  destruct pq as [|e0 pq0]; [done|].
  destruct (heappop (e0 :: pq0)) as [[[[h current] path] pq]|] eqn:Hpop; [|done].
  apply heappop_perm in Hpop.
  assert (∀ x, x ∈ (λ e, e.1.2) <$> e0 :: pq0 → x = current ∨ x ∈ (λ e, e.1.2) <$> pq)
    as Hpopped.
  { intros x. rewrite Hpop. simpl. by rewrite elem_of_cons. }
  destruct (decide (current = goal)); [done|].
  destruct (decide (current ∈ visited)) as [Hcv|Hcv].
  - intros [= <-]. simpl. eapply covered_skip; [done|].
    intros x [->|?]%Hpopped; [by left|by right].
  - destruct (for_each _ _ _) as [pq'|e] eqn:Hfor; [|done].
    intros [= <-]. simpl. apply for_each_bf_push_nodes in Hfor.
    eapply covered_expand; [done| |].
    + intros x [->|?]%Hpopped; [by left|right].
      rewrite Hfor, elem_of_app. by left.
    + intros w Hw. rewrite Hfor, elem_of_app. by right.
Qed.

Lemma best_first_search_reaches (fuel : nat) (r : option Path) :
  reachable graph start goal →
  best_first_search fuel graph cities start goal = Some (Ok r) → ∃ p, r = Some p.
Proof.
  intros Hreach. unfold best_first_search.
  destruct (heuristic cities goal start) as [h|e]; [|done]. intros Hrun.
  apply (while_invariant _
           (λ st, bf_ok graph start goal st ∧
                  covered graph start ((λ e, e.1.2) <$> st.1) st.2))
    in Hrun as ([pq visited] & [[_ Hg] Hcov] & Hb).
  - simpl in *. destruct pq as [|e0 pq0].
    { destruct Hg. by eapply covered_exhausted. }
    destruct (heappop (e0 :: pq0)) as [[[[h' current] path] pq]|]; [|done].
    destruct (decide (current = goal)); [by simplify_eq; eexists|].
    destruct (decide (current ∈ visited)); [done|]. by destruct (for_each _ _ _).
  - intros s s' [Hok Hcov] Hb. split.
    + by apply (bf_body_step graph cities start goal s s') in Hb as [? _].
    + by eapply bf_covered_step.
  - split; [apply bf_ok_init|]. split; [right; simpl; left|set_solver].
Qed.

(** X6: when the heuristic evaluates on every city that can be reached
    from [start], [best_first_search] returns a path from [start] to
    [goal] without repeated cities if there is a path, and [None] if
    there is none. *)
Theorem best_first_search_complete (fuel : nat) :
  search_bound graph ≤ fuel →
  (∀ n, reachable graph start n → is_Ok (heuristic cities goal n)) →
  ((∃ q, valid_path graph start goal q) →
   ∃ p, best_first_search fuel graph cities start goal = Some (Ok (Some p)) ∧
        valid_path graph start goal p ∧ NoDup p) ∧
  ((¬ ∃ q, valid_path graph start goal q) →
   best_first_search fuel graph cities start goal = Some (Ok None)).
Proof.
  intros Hfuel Hcoord.
  destruct (best_first_search_terminates graph cities start goal fuel Hfuel) as [o Ho].
  destruct (best_first_search_Ok graph cities start goal fuel o Hcoord Ho) as [r ->].
  split.
  - intros Hreach%valid_path_reachable.
    destruct (best_first_search_reaches fuel r Hreach Ho) as [p ->].
    exists p. split; [done|]. by eapply best_first_search_path.
  - intros Hno. destruct r as [p|]; [|done].
    destruct Hno. exists p. by eapply best_first_search_path.
Qed.

(** The neighbor loop of [a_star] keeps what is in the heap, records a
    score for every neighbor, and pushes every city it records. *)
Lemma for_each_as_relax_scored (path : Path) (cost : F) (ns : list string)
    (st st' : list (F * string * list string * F) * gmap string F) :
  for_each (as_relax cities goal path cost) st ns = Ok st' →
  (∀ x, x ∈ (λ e, e.1.1.2) <$> st.1 → x ∈ (λ e, e.1.1.2) <$> st'.1) ∧
  dom st.2 ⊆ dom st'.2 ∧
  (∀ n, n ∈ ns → n ∈ dom st'.2) ∧
  (∀ w, w ∈ dom st'.2 → w ∈ dom st.2 ∨ w ∈ (λ e, e.1.1.2) <$> st'.1).
Proof.
  revert st. induction ns as [|n ns IH]; intros [open_set g_score]; simpl.
  - intros [= <-]. simpl. split_and!; [done..| |by left].
    intros n Hn. by apply elem_of_nil in Hn.
  - destruct (heuristic cities goal n) as [h|e] eqn:Hh; simpl; [|done].
    destruct (g_score !! n) as [g|] eqn:Hg;
      [destruct (flt (fadd cost h) g)|]; unfold mret, Err_ret;
      intros (Hkeep & Hdom & Hns & Hnew)%IH; simpl in *.
    + split_and!.
      * intros x Hx. apply Hkeep. rewrite (heappush_perm open_set _). simpl. by right.
      * set_solver.
      * intros n' [->|?]%elem_of_cons; [|by apply Hns]. set_solver.
      * intros w [Hw|?]%Hnew; [|by right].
        apply elem_of_dom in Hw. destruct (decide (w = n)) as [->|Hwn].
        -- right. apply Hkeep. rewrite (heappush_perm open_set _). simpl. left.
        -- left. rewrite lookup_insert_ne in Hw by done. by apply elem_of_dom.
    + split_and!; [done..| |done].
      intros n' [->|?]%elem_of_cons; [|by apply Hns].
      apply Hdom, elem_of_dom. by eexists.
    + split_and!.
      * intros x Hx. apply Hkeep. rewrite (heappush_perm open_set _). simpl. by right.
      * set_solver.
      * intros n' [->|?]%elem_of_cons; [|by apply Hns]. set_solver.
      * intros w [Hw|?]%Hnew; [|by right].
        apply elem_of_dom in Hw. destruct (decide (w = n)) as [->|Hwn].
        -- right. apply Hkeep. rewrite (heappush_perm open_set _). simpl. left.
        -- left. rewrite lookup_insert_ne in Hw by done. by apply elem_of_dom.
Qed.

Lemma as_covered_step
    (s s' : list (F * string * list string * F) * gmap string F * gset string) :
  as_covered graph start ((λ e, e.1.1.2) <$> s.1.1) (dom s.1.2) s.2 →
  as_body graph cities goal s = inl s' →
  as_covered graph start ((λ e, e.1.1.2) <$> s'.1.1) (dom s'.1.2) s'.2.
Proof.
  destruct s as [[open_set g_score] visited]. simpl. intros (Hs & Hnb & Hsc).
  destruct open_set as [|e0 os0]; [done|].
  destruct (heappop (e0 :: os0)) as [[[[[f current] path] cost] os]|] eqn:Hpop; [|done].
  apply heappop_perm in Hpop.
  assert (∀ x, x ∈ (λ e, e.1.1.2) <$> e0 :: os0 → x = current ∨ x ∈ (λ e, e.1.1.2) <$> os)
    as Hpopped.
  { intros x. rewrite Hpop. simpl. by rewrite elem_of_cons. }
  destruct (decide (current = goal)); [done|].
  destruct (decide (current ∈ visited)) as [Hcv|Hcv].
  - intros [= <-]. simpl. split_and!; [done..|].
    intros w [?|[->|?]%Hpopped]%Hsc; [by left|by left|by right].
  - destruct (for_each _ _ _) as [[os' g_score']|e] eqn:Hfor; [|done].
    intros [= <-]. simpl.
    apply for_each_as_relax_scored in Hfor as (Hkeep & Hdom & Hns & Hnew). simpl in *.
    split_and!.
    + by apply Hdom.
    + intros v w [->%elem_of_singleton|Hv]%elem_of_union Hw; [by apply Hns|].
      by apply Hdom, (Hnb v w).
    + intros w [[?|[->|?]%Hpopped]%Hsc|?]%Hnew.
      * left. set_solver.
      * left. set_solver.
      * right. by apply Hkeep.
      * by right.
Qed.

Lemma as_covered_exhausted (n : string) (scored visited : gset string) :
  as_covered graph start [] scored visited → reachable graph start n → n ∈ visited.
Proof.
  intros (Hs & Hnb & Hsc). apply covered_exhausted. split.
  - destruct (Hsc start Hs) as [?|?]; [by left|by right].
  - intros v w Hv Hw. apply Hsc. by apply (Hnb v w).
Qed.

Lemma a_star_reaches (fuel : nat) (r : option Path) :
  reachable graph start goal →
  a_star fuel graph cities start goal = Some (Ok r) → ∃ p, r = Some p.
Proof.
  intros Hreach. unfold a_star. intros Hrun.
  apply (while_invariant _
           (λ st, as_ok graph start goal st ∧
                  as_covered graph start ((λ e, e.1.1.2) <$> st.1.1) (dom st.1.2) st.2))
    in Hrun as ([[open_set g_score] visited] & [[_ Hg] Hcov] & Hb).
  - simpl in *. destruct open_set as [|e0 os0].
    { destruct Hg. by eapply as_covered_exhausted. }
    destruct (heappop (e0 :: os0)) as [[[[[f current] path] cost] os]|]; [|done].
    destruct (decide (current = goal)); [by simplify_eq; eexists|].
    destruct (decide (current ∈ visited)); [done|].
    by destruct (for_each _ _ _) as [[??]|?].
  - intros s s' [Hok Hcov] Hb. split.
    + by apply (as_body_step graph cities start goal s s') in Hb as [? _].
    + by eapply as_covered_step.
  - split; [apply as_ok_init|]. simpl. split_and!.
    + rewrite dom_singleton_L. set_solver.
    + set_solver.
    + intros w. rewrite dom_singleton_L. intros ->%elem_of_singleton. right. left.
Qed.

(** X7: [a_star] pushes a neighbor only when its tentative cost beats
    the recorded one, and still misses no city: when the heuristic
    evaluates on every city that can be reached from [start], it returns
    a path from [start] to [goal] without repeated cities if there is a
    path, and [None] if there is none. *)
Theorem a_star_complete (fuel : nat) :
  search_bound graph ≤ fuel →
  (∀ n, reachable graph start n → is_Ok (heuristic cities goal n)) →
  ((∃ q, valid_path graph start goal q) →
   ∃ p, a_star fuel graph cities start goal = Some (Ok (Some p)) ∧
        valid_path graph start goal p ∧ NoDup p) ∧
  ((¬ ∃ q, valid_path graph start goal q) →
   a_star fuel graph cities start goal = Some (Ok None)).
Proof.
  intros Hfuel Hcoord.
  destruct (a_star_terminates graph cities start goal fuel Hfuel) as [o Ho].
  destruct (a_star_Ok graph cities start goal fuel o Hcoord Ho) as [r ->].
  split.
  - intros Hreach%valid_path_reachable.
    destruct (a_star_reaches fuel r Hreach Ho) as [p ->].
    exists p. split; [done|]. by eapply a_star_path.
  - intros Hno. destruct r as [p|]; [|done].
    destruct Hno. exists p. by eapply a_star_path.
Qed.
End HeuristicComplete.

(** ** Iterative deepening finds a shortest path within its depth *)

Lemma walk_suffix (graph : Graph) (x a c : string) (l1 l2 : list string) :
  walk graph x (l1 ++ a :: l2) c → walk graph a l2 c.
Proof.
  revert x. induction l1 as [|y l1 IH]; intros x Hw; simpl in Hw.
  - by inversion Hw; subst.
  - inversion Hw; subst. by eapply IH.
Qed.

(** Cutting the loops out of a walk. *)
Lemma walk_simple (graph : Graph) (a c : string) (l : list string) :
  walk graph a l c →
  ∃ l', walk graph a l' c ∧ NoDup (a :: l') ∧ length l' ≤ length l.
Proof.
  induction 1 as [a|a b c l Hab Hw (l' & Hw' & Hnd & Hlen)].
  - exists []. split_and!; [apply walk_nil|apply NoDup_singleton|done].
  - destruct (decide (a ∈ b :: l')) as [Hin|Hin].
    + apply list_elem_of_split in Hin as (l1 & l2 & Heq).
      exists l2. split_and!.
      * destruct l1 as [|y l1]; simpl in Heq; simplify_eq; [done|].
        by eapply walk_suffix.
      * rewrite Heq in Hnd. by apply NoDup_app in Hnd as (_ & _ & ?).
      * apply (f_equal length) in Heq. rewrite length_app in Heq. simpl in *. lia.
    + exists (b :: l'). split_and!; [by apply walk_cons|by apply NoDup_cons|simpl; lia].
Qed.

Lemma first_truthy_elem {A : Type} (f : A → option Path) (l : list A) (x : A) :
  x ∈ l → truthy (f x) = true → truthy (first_truthy f l) = true.
Proof.
  induction l as [|y l IH]; simpl; [by intros ?%elem_of_nil|].
  intros [->|Hx]%elem_of_cons Ht.
  - by rewrite Ht.
  - destruct (truthy (f y)) eqn:Hy; [done|]. by apply IH.
Qed.

(** Over [range], the loop returns what the first depth that succeeds
    gives. *)
Lemma first_truthy_seq_le (f : nat → option Path) (a n d : nat) (p : Path) :
  first_truthy f (seq a n) = Some p →
  a ≤ d < a + n → truthy (f d) = true →
  ∃ x, a ≤ x ≤ d ∧ f x = Some p.
Proof.
  revert a. induction n as [|n IH]; intros a; simpl; [lia|].
  destruct (truthy (f a)) eqn:Ha.
  - intros Hf Hd _. exists a. split; [lia|done].
  - intros Hf Hd Ht. destruct (decide (d = a)) as [->|Hda]; [congruence|].
    destruct (IH (S a) Hf) as (x & ? & ?); [lia|done|]. exists x. split; [lia|done].
Qed.

(** [dls] finds the goal whenever a walk without repetition, off the
    path so far and shorter than the depth, leads to it. *)
Lemma dls_complete (graph : Graph) (goal : string) (depth : nat) (node : string)
    (path : Path) (l : list string) :
  path ≠ [] →
  walk graph node l goal → NoDup l → (∀ x, x ∈ l → x ∉ path) →
  length l < depth →
  truthy (dls graph goal depth node path) = true.
Proof.
  revert node path l. induction depth as [|depth IH]; intros node path l Hne Hw Hnd Hoff Hlen;
    [lia|]. simpl.
  destruct (decide (node = goal)) as [->|Hng].
  { by destruct path. }
  inversion Hw as [|a b c l' Hab Hw']; subst; [done|].
  apply NoDup_cons in Hnd as [Hb Hnd].
  apply (first_truthy_elem _ _ b); [done|].
  rewrite decide_False by (apply Hoff; left).
  apply (IH b (path ++ [b]) l').
  - by destruct path.
  - done.
  - done.
  - intros x Hx [Hp| ->%list_elem_of_singleton]%elem_of_app; [|done].
    by apply (Hoff x); [right|].
  - simpl in Hlen. lia.
Qed.

(** Whatever walk of at most [max_depth - 2] edges leads to the goal,
    [iddfs] returns a path with no more edges. *)
Lemma iddfs_minimal (graph : Graph) (start goal : string) (max_depth : Z) (l : list string) :
  walk graph start l goal →
  (Z.of_nat (length l) ≤ max_depth - 2)%Z →
  ∃ p, iddfs graph start goal max_depth = Some p ∧ edges p ≤ length l.
Proof.
  intros (l' & Hw & Hnd & Hlen)%walk_simple Hdepth.
  apply NoDup_cons in Hnd as [Hstart Hnd].
  assert (truthy (dls graph goal (S (length l')) start [start]) = true) as Hfound.
  { apply (dls_complete graph goal _ start [start] l'); [done..| |lia].
    intros x Hx ->%list_elem_of_singleton. done. }
  assert (S (length l') < Z.to_nat max_depth) as Hrange by lia.
  assert (truthy (iddfs graph start goal max_depth) = true) as Hsome.
  { unfold iddfs, range. apply (first_truthy_elem _ _ (S (length l'))); [|done].
    apply elem_of_seq. lia. }
  destruct (iddfs graph start goal max_depth) as [p|] eqn:Hi; [|done].
  exists p. split; [done|].
  unfold iddfs, range in Hi.
  apply (first_truthy_seq_le _ 0 _ (S (length l'))) in Hi as (x & Hx & Hd);
    [|lia|done].
  apply dls_Some in Hd as (ext & -> & _ & Hext & _).
  unfold edges. simpl. lia.
Qed.

Lemma iddfs_shortest (graph : Graph) (start goal : string) (max_depth : Z) (p q : Path) :
  iddfs graph start goal max_depth = Some p →
  valid_path graph start goal q → edges p ≤ edges q.
Proof.
  intros Hp (l & -> & Hw)%valid_path_walk. unfold edges at 2. simpl.
  rewrite Nat.sub_0_r.
  destruct (decide (Z.of_nat (length l) ≤ max_depth - 2)%Z) as [Hle|Hgt].
  - destruct (iddfs_minimal graph start goal max_depth l Hw Hle) as (p' & Hp' & ?).
    by simplify_eq.
  - apply iddfs_path in Hp as (_ & _ & ?). lia.
Qed.

(** X8: whenever some path from [start] to [goal] has at most
    [max_depth - 2] edges, [iddfs] returns a path, and that path has the
    fewest edges of all paths from [start] to [goal]. *)
Theorem iddfs_shortest_path (graph : Graph) (start goal : string) (max_depth : Z) :
  (∃ q, valid_path graph start goal q ∧ (Z.of_nat (edges q) ≤ max_depth - 2)%Z) →
  ∃ p, iddfs graph start goal max_depth = Some p ∧
       valid_path graph start goal p ∧
       ∀ q, valid_path graph start goal q → edges p ≤ edges q.
Proof.
  intros (q & (l & -> & Hw)%valid_path_walk & Hq).
  unfold edges in Hq. simpl in Hq. rewrite Nat.sub_0_r in Hq.
  destruct (iddfs_minimal graph start goal max_depth l Hw Hq) as (p & Hp & _).
  exists p. split_and!; [done| |].
  - by apply iddfs_path in Hp as (? & _).
  - intros q'. by apply iddfs_shortest with max_depth.
Qed.

(** X9: a path returned by [iddfs] and the path [bfs] returns for the
    same endpoints have the same number of edges. *)
Theorem iddfs_bfs_same_length (graph : Graph) (start goal : string) (max_depth : Z)
    (fuel : nat) (p : Path) :
  search_bound graph ≤ fuel →
  iddfs graph start goal max_depth = Some p →
  ∃ q, bfs fuel graph start goal = Some (Some q) ∧ edges q = edges p.
Proof.
  intros Hfuel Hp.
  destruct (bfs_terminates graph start goal fuel Hfuel) as [r Hr].
  pose proof (iddfs_path graph start goal max_depth p Hp) as (Hvalid & _ & _).
  pose proof Hvalid as (l & -> & Hw)%valid_path_walk.
  destruct (bfs_shortest graph start goal fuel r) as (q & -> & Hmin); [by exists l|done|].
  exists q. split; [done|].
  apply Nat.le_antisymm.
  - specialize (Hmin l Hw). unfold edges at 2. simpl. lia.
  - apply (iddfs_shortest graph start goal max_depth _ q Hp). by eapply bfs_path.
Qed.

(** X10: [iddfs] checks the goal only from depth 1 on, and [range]
    stops one short of [max_depth]: with [max_depth] at most 1 it
    returns [None] for all endpoints, equal ones included; from
    [max_depth = 2] on it returns [[n]] when start and goal are the same
    city [n]. *)
Theorem iddfs_small_depth (graph : Graph) (max_depth : Z) :
  ((max_depth ≤ 1)%Z → ∀ start goal, iddfs graph start goal max_depth = None) ∧
  ((2 ≤ max_depth)%Z → ∀ n, iddfs graph n n max_depth = Some [n]).
Proof.
  split.
  - intros Hle start goal. unfold iddfs, range.
    destruct (Z.to_nat max_depth) as [|[|k]] eqn:Hk; [done|done|lia].
  - intros Hge n. unfold iddfs, range.
    destruct (Z.to_nat max_depth) as [|[|k]] eqn:Hk; [lia|lia|].
    simpl. by rewrite decide_True.
Qed.

(** ** Breadth-first search against the other searches *)

Lemma walk_reverse (graph : Graph) (a c : string) (l : list string) :
  symmetric graph → walk graph a l c → ∃ l', walk graph c l' a ∧ length l' = length l.
Proof.
  intros Hsym. induction 1 as [a|a b c l Hab Hw (l' & Hw' & Hlen)].
  - exists []. split; [apply walk_nil|done].
  - exists (l' ++ [a]). split.
    + eapply walk_snoc; [done|]. by apply Hsym.
    + rewrite length_app. simpl. lia.
Qed.

(** The number of edges of the path [bfs] returns is the least length of
    a walk to the goal. *)
Lemma bfs_edges (graph : Graph) (start goal : string) (fuel : nat) (p : Path)
    (l : list string) :
  bfs fuel graph start goal = Some (Some p) →
  walk graph start l goal → edges p ≤ length l.
Proof.
  intros Hp Hw.
  destruct (bfs_shortest graph start goal fuel (Some p)) as (p' & [= <-] & Hmin);
    [by exists l|done|].
  by apply Hmin.
Qed.

(** X11: in a graph with mutual neighbor lists, as [load_adjacencies]
    builds it, [bfs] finds a way back as short as the way there: if it
    returns a path from [a] to [b], it returns one from [b] to [a] with
    the same number of edges. *)
Theorem bfs_symmetric (graph : Graph) (a b : string) (fuel : nat) (p : Path) :
  symmetric graph →
  search_bound graph ≤ fuel →
  bfs fuel graph a b = Some (Some p) →
  ∃ q, bfs fuel graph b a = Some (Some q) ∧ edges q = edges p.
Proof.
  intros Hsym Hfuel Hp.
  pose proof (bfs_path graph a b fuel p Hp) as [(l & -> & Hw)%valid_path_walk _].
  destruct (walk_reverse graph a b l Hsym Hw) as (l' & Hw' & Hlen).
  destruct (bfs_terminates graph b a fuel Hfuel) as [r Hr].
  destruct (bfs_shortest graph b a fuel r) as (q & -> & Hmin); [by exists l'|done|].
  exists q. split; [done|].
  pose proof (bfs_path graph b a fuel q Hr) as [(k & -> & Hk)%valid_path_walk _].
  destruct (walk_reverse graph b a k Hsym Hk) as (k' & Hk' & Hlenk).
  pose proof (bfs_edges graph a b fuel (a :: l) k' Hp Hk') as Hle.
  specialize (Hmin l' Hw'). unfold edges in *. simpl in *. lia.
Qed.

Section Comparison.
Context `{Float} `{!Heapq (F * string * list string)} `{!Heapq (F * string * list string * F)}.

(** X12: whatever path [dfs], [iddfs], [best_first_search] or [a_star]
    returns, [bfs] returns one for the same endpoints with no more
    edges. *)
Theorem bfs_no_longer (graph : Graph) (cities : gmap string (F * F)) (start goal : string)
    (max_depth : Z) (fuel fuel' : nat) (q : Path) :
  search_bound graph ≤ fuel →
  dfs fuel' graph start goal = Some (Some q) ∨
  iddfs graph start goal max_depth = Some q ∨
  best_first_search fuel' graph cities start goal = Some (Ok (Some q)) ∨
  a_star fuel' graph cities start goal = Some (Ok (Some q)) →
  ∃ p, bfs fuel graph start goal = Some (Some p) ∧ edges p ≤ edges q.
Proof.
  intros Hfuel Hq.
  assert (valid_path graph start goal q) as (l & -> & Hw)%valid_path_walk.
  { destruct Hq as [Hq|[Hq|[Hq|Hq]]].
    - by eapply dfs_path.
    - by apply iddfs_path in Hq as (? & _).
    - by eapply best_first_search_path.
    - by eapply a_star_path. }
  destruct (bfs_terminates graph start goal fuel Hfuel) as [r Hr].
  destruct (bfs_shortest graph start goal fuel r) as (p & -> & Hmin); [by exists l|done|].
  exists p. split; [done|]. unfold edges at 2. simpl. rewrite Nat.sub_0_r. by apply Hmin.
Qed.

(** X13: a goal without coordinates.  [best_first_search] raises
    [KeyError] before its loop, for [start] if that has no coordinates
    either and for [goal] otherwise, even when start and goal are the
    same city.  [a_star] first evaluates the heuristic on the first
    neighbor of [start]: with [start] and [goal] different it raises
    [KeyError] there, and returns [None] without raising when [start]
    has no neighbors. *)
Theorem goal_without_coordinates (graph : Graph) (cities : gmap string (F * F))
    (start goal : string) (fuel : nat) :
  cities !! goal = None →
  best_first_search fuel graph cities start goal =
    Some (Raise (KeyError (if decide (is_Some (cities !! start)) then goal else start))) ∧
  (start ≠ goal →
   a_star (2 + fuel) graph cities start goal =
     match neighbors graph start with
     | [] => Some (Ok None)
     | n :: _ => Some (Raise (KeyError (if decide (is_Some (cities !! n)) then goal else n)))
     end).
Proof.
  intros Hgoal.
  assert (∀ n, heuristic cities goal n =
               Raise (KeyError (if decide (is_Some (cities !! n)) then goal else n))) as Hh.
  { intros n. unfold heuristic, coordinates. rewrite Hgoal.
    by destruct (cities !! n) as [[lat lon]|]. }
  split.
  - unfold best_first_search. by rewrite Hh.
  - intros Hne. unfold a_star. simpl.
    destruct (heappop_nonempty [(fzero, start, [start], fzero)]) as [[[[[f c] p] g] os] Hpop];
      [done|].
    rewrite Hpop. apply heappop_perm, Permutation_singleton_l in Hpop.
    injection Hpop as <- <- <- <- <-.
    rewrite decide_False by done. rewrite decide_False by set_solver.
    destruct (neighbors graph start) as [|n ns]; simpl; [done|].
    by rewrite Hh.
Qed.
End Comparison.

(** ** The coordinates, row by row *)

Section LoadCitiesProperties.
Context `{Float} (float_of_string : string → option F).

Lemma cities_row_malformed (cities : gmap string (F * F)) (row : list string) :
  length row ≠ 3 → cities_row float_of_string cities row = Loaded cities.
Proof. by destruct row as [|? [|? [|? [|? ?]]]]. Qed.

Lemma cities_row_parses (cities : gmap string (F * F)) (row : list string) :
  row_parses float_of_string row ↔
  ∃ cities', cities_row float_of_string cities row = Loaded cities'.
Proof.
  destruct row as [|city [|lat [|lon [|? ?]]]]; simpl; try (split; by eauto).
  destruct (float_of_string lat) as [x|]; [destruct (float_of_string lon) as [y|]|].
  - split; by eauto.
  - split; [by intros [_ [? ?]]|by intros [? ?]].
  - split; [by intros [[? ?] _]|by intros [? ?]].
Qed.

Lemma cities_rows_filter (cities : gmap string (F * F)) (rows : list (list string)) :
  cities_rows float_of_string cities rows =
  cities_rows float_of_string cities (filter (λ row, length row = 3) rows).
Proof.
  revert cities. induction rows as [|row rows IH]; intros cities; [done|].
  rewrite filter_cons. case_decide as Hlen; simpl.
  - destruct (cities_row float_of_string cities row); [apply IH|done].
  - rewrite cities_row_malformed by done. apply IH.
Qed.

(** X14: [load_cities] drops the first row whatever it holds, and every
    row that does not have three fields: the outcome is the one for the
    three-field rows after the first, under any first row. *)
Theorem load_cities_skips (header header' : list string) (rows : list (list string)) :
  load_cities float_of_string (header :: rows) =
  load_cities float_of_string (header' :: filter (λ row, length row = 3) rows).
Proof. unfold load_cities. simpl. apply cities_rows_filter. Qed.

Lemma cities_rows_lookup (rows : list (list string)) (cities0 cities : gmap string (F * F))
    (city : string) (x y : F) :
  cities_rows float_of_string cities0 rows = Loaded cities →
  cities !! city = Some (x, y) ↔
  (∃ before lat lon after,
     rows = before ++ [city; lat; lon] :: after ∧
     float_of_string lat = Some x ∧ float_of_string lon = Some y ∧
     ∀ lat' lon', [city; lat'; lon'] ∉ after) ∨
  (cities0 !! city = Some (x, y) ∧ ∀ lat' lon', [city; lat'; lon'] ∉ rows).
Proof.
  revert cities0. induction rows as [|row rows IH]; intros cities0; simpl.
  { intros [= <-]. split.
    - intros ?. right. split; [done|]. intros ? ?. apply not_elem_of_nil.
    - intros [(before & ? & ? & ? & Heq & _)|[? _]]; [by destruct before|done]. }
  destruct (cities_row float_of_string cities0 row) as [cities1|] eqn:Hrow; [|done].
  intros Hrest. rewrite (IH cities1 Hrest). clear IH Hrest. split.
  - intros [(before & lat & lon & after & -> & ? & ? & ?)|[Hc1 Hnone]].
    { left. by exists (row :: before), lat, lon, after. }
    destruct row as [|city' [|lat [|lon [|? ?]]]]; simpl in Hrow; simplify_eq;
      try (right; split; [done|]; intros ? ? [?|?]%elem_of_cons; [done|by eapply Hnone]).
    destruct (float_of_string lat) as [x'|] eqn:Hlat; [|done].
    destruct (float_of_string lon) as [y'|] eqn:Hlon; [|done]. simplify_eq.
    destruct (decide (city' = city)) as [->|Hne].
    + rewrite lookup_insert_eq in Hc1. simplify_eq.
      left. by exists [], lat, lon, rows.
    + rewrite lookup_insert_ne in Hc1 by done.
      right. split; [done|]. intros ? ? [?|?]%elem_of_cons; [by simplify_eq|by eapply Hnone].
  - intros [(before & lat & lon & after & Heq & Hlat & Hlon & Hnone)|[Hc0 Hnone]].
    + destruct before as [|row' before]; simpl in Heq; simplify_eq.
      * right. simpl in Hrow. rewrite Hlat, Hlon in Hrow. simplify_eq.
        by rewrite lookup_insert_eq.
      * left. by exists before, lat, lon, after.
    + right. split; [|intros lat' lon' ?; apply (Hnone lat' lon'); by right].
      destruct row as [|city' [|lat [|lon [|? ?]]]]; simpl in Hrow; simplify_eq; try done.
      destruct (float_of_string lat) as [x'|]; [|done].
      destruct (float_of_string lon) as [y'|]; [|done]. simplify_eq.
      rewrite lookup_insert_ne; [done|]. intros ->. apply (Hnone lat lon). left.
Qed.

(** X15: in the dict [load_cities] returns, a city has the coordinates
    of the last three-field row (after the first row of the file) that
    names it: a later row for the same city replaces an earlier one, and
    a city is a key only if such a row exists. *)
Theorem load_cities_lookup (rows : list (list string)) (cities : gmap string (F * F))
    (city : string) (x y : F) :
  load_cities float_of_string rows = Loaded cities →
  cities !! city = Some (x, y) ↔
  ∃ before lat lon after,
    tail rows = before ++ [city; lat; lon] :: after ∧
    float_of_string lat = Some x ∧ float_of_string lon = Some y ∧
    ∀ lat' lon', [city; lat'; lon'] ∉ after.
Proof.
  unfold load_cities. intros Hload.
  rewrite (cities_rows_lookup _ _ _ city x y Hload). rewrite lookup_empty.
  split; [by intros [?|[? _]]|by left].
Qed.

Lemma cities_rows_Loaded (rows : list (list string)) (cities0 : gmap string (F * F)) :
  (∃ cities, cities_rows float_of_string cities0 rows = Loaded cities) ↔
  Forall (row_parses float_of_string) rows.
Proof.
  revert cities0. induction rows as [|row rows IH]; intros cities0; simpl.
  { split; [by intros|by eauto]. }
  rewrite Forall_cons, (cities_row_parses cities0 row).
  destruct (cities_row float_of_string cities0 row) as [cities1|text].
  - rewrite (IH cities1). split; [by eauto|by intros [_ ?]].
  - split; [by intros [? ?]|by intros [[? ?] _]].
Qed.

Lemma cities_rows_ValueError (rows : list (list string)) (cities0 : gmap string (F * F))
    (text : string) :
  cities_rows float_of_string cities0 rows = ValueError text ↔
  ∃ before city lat lon after,
    rows = before ++ [city; lat; lon] :: after ∧
    Forall (row_parses float_of_string) before ∧
    ((float_of_string lat = None ∧ text = lat) ∨
     (is_Some (float_of_string lat) ∧ float_of_string lon = None ∧ text = lon)).
Proof.
  split.
  - revert cities0. induction rows as [|row rows IH]; intros cities0; simpl; [done|].
    destruct (cities_row float_of_string cities0 row) as [cities1|text'] eqn:Hrow.
    + intros (before & city & lat & lon & after & -> & Hparse & Hbad)%IH.
      exists (row :: before), city, lat, lon, after. split_and!; [done| |done].
      apply Forall_cons. split; [|done]. apply (cities_row_parses cities0). by eauto.
    + intros [= ->]. destruct row as [|city [|lat [|lon [|? ?]]]]; simpl in Hrow; try done.
      exists [], city, lat, lon, rows. split_and!; [done|apply Forall_nil_2|].
      destruct (float_of_string lat) as [x|]; [|left; by simplify_eq].
      destruct (float_of_string lon) as [y|]; [done|]. right. simplify_eq. by eauto.
  - intros (before & city & lat & lon & after & -> & Hparse & Hbad).
    revert cities0. induction Hparse as [|row before Hrow _ IH]; intros cities0; simpl.
    + destruct Hbad as [[-> ->]|([x ->] & -> & ->)]; done.
    + apply (cities_row_parses cities0) in Hrow as [cities1 ->]. apply IH.
Qed.

(** X16: [load_cities] returns a dict exactly when [float] accepts the
    two numbers of every three-field row after the first row; otherwise
    it raises [ValueError] for the first text [float] rejects, latitude
    before longitude, and returns nothing of what it had read. *)
Theorem load_cities_ValueError (rows : list (list string)) :
  ((∃ cities, load_cities float_of_string rows = Loaded cities) ↔
   Forall (row_parses float_of_string) (tail rows)) ∧
  ∀ text,
    load_cities float_of_string rows = ValueError text ↔
    ∃ before city lat lon after,
      tail rows = before ++ [city; lat; lon] :: after ∧
      Forall (row_parses float_of_string) before ∧
      ((float_of_string lat = None ∧ text = lat) ∨
       (is_Some (float_of_string lat) ∧ float_of_string lon = None ∧ text = lon)).
Proof.
  unfold load_cities. split.
  - apply cities_rows_Loaded.
  - intros text. apply cities_rows_ValueError.
Qed.
End LoadCitiesProperties.

(** * The further properties on the fixtures *)

(** A walk stays inside a set of cities that no edge leaves. *)
Lemma walk_closed (graph : Graph) (inside : gset string) (a c : string) (l : list string) :
  map_Forall (λ a ns, a ∈ inside → Forall (.∈ inside) ns) graph →
  a ∈ inside → walk graph a l c → c ∈ inside.
Proof.
  intros Hall Ha Hw. induction Hw as [a|a b c l Hab Hw IH]; [done|].
  apply IH. unfold neighbors in Hab.
  destruct (graph !! a) as [ns|] eqn:Hns; simpl in Hab; [|by apply elem_of_nil in Hab].
  specialize (Hall a ns Hns Ha). rewrite Forall_forall in Hall. by apply Hall.
Qed.

Lemma islands_apart : ¬ ∃ q, valid_path islands "A" "C" q.
Proof.
  intros [q (l & _ & Hw)%valid_path_walk].
  apply (walk_closed islands {["A"; "B"]}) in Hw; [set_solver| |set_solver].
  by_evaluation.
Qed.

Lemma islands_cities_listed :
  map_Forall (λ _ ns, Forall (λ b, is_Some (square_cities !! b)) ns) islands.
Proof. by_evaluation. Qed.

Lemma uninformed_search_complete_witness :
  (∃ p, bfs 20 square "A" "C" = Some (Some p) ∧ valid_path square "A" "C" p ∧ NoDup p) ∧
  (∃ p, dfs 20 square "A" "C" = Some (Some p) ∧ valid_path square "A" "C" p ∧ NoDup p) ∧
  bfs 20 islands "A" "C" = Some None ∧ dfs 20 islands "A" "C" = Some None.
Proof.
  destruct (uninformed_search_complete square "A" "C" 20) as [Hyes _]; [vm_compute; lia|].
  destruct (uninformed_search_complete islands "A" "C" 20) as [_ Hno]; [vm_compute; lia|].
  destruct Hyes as [Hbfs Hdfs]; [exists ["A"; "B"; "C"]; apply square_ABC|].
  destruct (Hno islands_apart) as [Hbfs' Hdfs'].
  by split_and!.
Defined.

Lemma best_first_search_complete_witness :
  (∃ p, best_first_search 20 square square_cities "A" "C" = Some (Ok (Some p)) ∧
        valid_path square "A" "C" p ∧ NoDup p) ∧
  best_first_search 20 islands square_cities "A" "C" = Some (Ok None).
Proof.
  destruct (best_first_search_complete (H := Z_Float) square square_cities "A" "C" 20)
    as [Hyes _].
  { vm_compute. lia. }
  { apply Z_heuristic_Ok_reachable; [by_evaluation..|apply square_cities_listed]. }
  destruct (best_first_search_complete (H := Z_Float) islands square_cities "A" "C" 20)
    as [_ Hno].
  { vm_compute. lia. }
  { apply Z_heuristic_Ok_reachable; [by_evaluation..|apply islands_cities_listed]. }
  split; [apply Hyes; exists ["A"; "B"; "C"]; apply square_ABC|apply Hno, islands_apart].
Defined.

Lemma a_star_complete_witness :
  (∃ p, a_star 20 square square_cities "A" "C" = Some (Ok (Some p)) ∧
        valid_path square "A" "C" p ∧ NoDup p) ∧
  a_star 20 islands square_cities "A" "C" = Some (Ok None).
Proof.
  destruct (a_star_complete (H := Z_Float) square square_cities "A" "C" 20) as [Hyes _].
  { vm_compute. lia. }
  { apply Z_heuristic_Ok_reachable; [by_evaluation..|apply square_cities_listed]. }
  destruct (a_star_complete (H := Z_Float) islands square_cities "A" "C" 20) as [_ Hno].
  { vm_compute. lia. }
  { apply Z_heuristic_Ok_reachable; [by_evaluation..|apply islands_cities_listed]. }
  split; [apply Hyes; exists ["A"; "B"; "C"]; apply square_ABC|apply Hno, islands_apart].
Defined.

Lemma iddfs_shortest_path_witness :
  ∃ p, iddfs square "A" "C" default_max_depth = Some p ∧
       valid_path square "A" "C" p ∧
       ∀ q, valid_path square "A" "C" q → edges p ≤ edges q.
Proof.
  apply (iddfs_shortest_path square "A" "C" default_max_depth).
  exists ["A"; "B"; "C"]. split; [apply square_ABC|by vm_compute].
Defined.

Lemma iddfs_bfs_same_length_witness :
  ∃ q, bfs 20 square "A" "C" = Some (Some q) ∧ edges q = edges ["A"; "B"; "C"].
Proof.
  apply (iddfs_bfs_same_length square "A" "C" default_max_depth 20 ["A"; "B"; "C"]).
  - vm_compute. lia.
  - vm_compute. reflexivity.
Defined.

Lemma iddfs_small_depth_witness :
  iddfs square "A" "A" 1 = None ∧ iddfs square "A" "A" 2 = Some ["A"].
Proof.
  destruct (iddfs_small_depth square 1) as [Hlow _].
  destruct (iddfs_small_depth square 2) as [_ Hhigh].
  split; [apply Hlow; lia|apply Hhigh; lia].
Defined.

Lemma bfs_symmetric_witness :
  ∃ q, bfs 20 square "C" "A" = Some (Some q) ∧ edges q = edges ["A"; "B"; "C"].
Proof.
  apply (bfs_symmetric square "A" "C" 20 ["A"; "B"; "C"]).
  - apply square_symmetric.
  - vm_compute. lia.
  - vm_compute. reflexivity.
Defined.

Lemma bfs_no_longer_witness :
  ∃ p, bfs 20 square "A" "C" = Some (Some p) ∧ edges p ≤ edges ["A"; "D"; "C"].
Proof.
  apply (bfs_no_longer (H := Z_Float) square square_cities "A" "C" default_max_depth 20 20).
  - vm_compute. lia.
  - left. vm_compute. reflexivity.
Defined.

Lemma goal_without_coordinates_witness :
  best_first_search 20 square cities_without_D "A" "D" = Some (Raise (KeyError "D")) ∧
  a_star 20 square cities_without_D "A" "D" = Some (Raise (KeyError "D")) ∧
  a_star 20 islands cities_without_D "Z" "D" = Some (Ok None).
Proof.
  destruct (goal_without_coordinates (H := Z_Float) square cities_without_D "A" "D" 20)
    as [Hbf _]; [reflexivity|].
  destruct (goal_without_coordinates (H := Z_Float) square cities_without_D "A" "D" 18)
    as [_ Has]; [reflexivity|].
  destruct (goal_without_coordinates (H := Z_Float) islands cities_without_D "Z" "D" 18)
    as [_ Has']; [reflexivity|].
  split_and!; [apply Hbf|by apply Has|by apply Has'].
Defined.

Lemma load_cities_lookup_witness :
  load_cities (H := Z_Float) Z_of_string coordinate_rows =
    Loaded {[ "A" := (3, -4)%Z; "C" := (0, 7)%Z ]} ∧
  ({[ "A" := (3, -4)%Z; "C" := (0, 7)%Z ]} : gmap string (Z * Z)) !! "A" = Some (3, -4)%Z.
Proof.
  assert (load_cities (H := Z_Float) Z_of_string coordinate_rows =
          Loaded {[ "A" := (3, -4)%Z; "C" := (0, 7)%Z ]}) as Hload
    by (vm_compute; reflexivity).
  split; [done|].
  apply (load_cities_lookup (H := Z_Float) Z_of_string coordinate_rows _ "A" 3%Z (-4)%Z Hload).
  exists [["A"; "1"; "2"]; ["B"; "5"]], "3", "-4", [["C"; "0"; "7"]].
  split_and!; [reflexivity..|].
  intros lat' lon' [?|?%elem_of_nil]%elem_of_cons; done.
Defined.
